(** * FusBuddy360 palette: markdown renderer and chat controller

    Shallow embedding of [palette.js].  A JavaScript string is the list of
    its UTF-16 code units, as numbers (nothing below depends on their being
    under 65536); the DOM of the palette is a record holding the parts the
    script reads and writes; the host bridge, [JSON] and the clock are
    parameters. *)

From Stdlib Require Import Ascii String DecimalString DecimalZ.
From Stdlib Require Import List NArith ZArith Bool Lia.
Import ListNotations.

Set Implicit Arguments.
Set Warnings "-register-all".

(** ** JavaScript strings *)

Definition cu := N.
Definition jsstring := list cu.

(** An ASCII literal as a JavaScript string. *)
Definition js (s : string) : jsstring := map N_of_ascii (list_ascii_of_string s).

Definition cu_eqb (a b : cu) : bool := N.eqb a b.
Definition in_range (lo hi c : cu) : bool := (N.leb lo c && N.leb c hi)%bool.

Definition LF : cu := 10%N.
Definition DQUOTE : cu := 34%N.
Definition AMP : cu := 38%N.
Definition STAR : cu := 42%N.
Definition LT : cu := 60%N.
Definition GT : cu := 62%N.
Definition UNDERSCORE : cu := 95%N.
Definition NBSP : cu := 160%N.

Local Open Scope N_scope.

(** ECMAScript LineTerminator: LF, CR, LS, PS. *)
Definition is_line_terminator (c : cu) : bool :=
  cu_eqb c 10 || cu_eqb c 13 || cu_eqb c 8232 || cu_eqb c 8233.

(** ECMAScript WhiteSpace: TAB, VT, FF, ZWNBSP and the space separators. *)
Definition is_white_space (c : cu) : bool :=
  cu_eqb c 9 || cu_eqb c 11 || cu_eqb c 12 || cu_eqb c 32 || cu_eqb c 160
  || cu_eqb c 5760 || in_range 8192 8202 c || cu_eqb c 8239 || cu_eqb c 8287
  || cu_eqb c 12288 || cu_eqb c 65279.

(** What [String.prototype.trim] strips and what [\s] matches. *)
Definition is_space (c : cu) : bool := is_white_space c || is_line_terminator c.

(** [\d] *)
Definition is_digit (c : cu) : bool := in_range 48 57 c.

(** [\w], the word characters that [\b] looks at. *)
Definition is_word (c : cu) : bool :=
  in_range 97 122 c || in_range 65 90 c || is_digit c || cu_eqb c UNDERSCORE.

(** [.] without the [s] flag. *)
Definition is_dot (c : cu) : bool := negb (is_line_terminator c).

Local Close Scope N_scope.

Fixpoint dropWhile (p : cu -> bool) (s : jsstring) : jsstring :=
  match s with
  | [] => []
  | c :: s' => if p c then dropWhile p s' else s
  end.

Definition trimStart (s : jsstring) : jsstring := dropWhile is_space s.
Definition trimEnd (s : jsstring) : jsstring := rev (dropWhile is_space (rev s)).

(** [s.trim()] *)
Definition trim (s : jsstring) : jsstring := trimEnd (trimStart s).

(** [text.split('\n')]: never empty, [""] gives [[""]]. *)
Fixpoint split_lines (s : jsstring) : list jsstring :=
  match s with
  | [] => [[]]
  | c :: s' =>
      if cu_eqb c LF then [] :: split_lines s'
      else match split_lines s' with
           | l :: ls => (c :: l) :: ls
           | [] => [[c]]
           end
  end.

(** [s.startsWith(p)] *)
Fixpoint startsWith (p s : jsstring) : bool :=
  match p, s with
  | [], _ => true
  | a :: p', b :: s' => cu_eqb a b && startsWith p' s'
  | _ :: _, [] => false
  end.

(** [s.substring(n)] *)
Definition substring (n : nat) (s : jsstring) : jsstring := skipn n s.

(** ** The regular expressions of the script

    Every quantifier in [palette.js] is [+] or [+?] over one character class,
    at most wrapped in a capture group, so a pattern is a sequence of the
    items below.  The matcher backtracks as ECMAScript does: a greedy run
    tries the longest extension first, a lazy run the shortest. *)

Inductive item :=
| Bol
| Eol
| WordB
| Class (p : cu -> bool)
| Plus (greedy capture : bool) (p : cu -> bool).

Definition regex := list item.

Definition word_at (c : option cu) : bool :=
  match c with Some x => is_word x | None => false end.

Section Matcher.
Variable R : Type.

(** One or more code units of class [p], then the continuation [k]. *)
Fixpoint plus_run (greedy : bool) (p : cu -> bool)
         (k : jsstring -> option cu -> jsstring -> option R)
         (acc s : jsstring) : option R :=
  match s with
  | [] => None
  | c :: s' =>
      if p c then
        if greedy then
          match plus_run greedy p k (acc ++ [c]) s' with
          | Some r => Some r
          | None => k (acc ++ [c]) (Some c) s'
          end
        else
          match k (acc ++ [c]) (Some c) s' with
          | Some r => Some r
          | None => plus_run greedy p k (acc ++ [c]) s'
          end
      else None
  end.
End Matcher.

(** Match [r] at the current position; [prev] is the code unit before it
    ([None] at the start of the input).  The result is the captures in
    order and the input left after the match. *)
Fixpoint match_here (r : regex) (caps : list jsstring) (prev : option cu)
         (s : jsstring) : option (list jsstring * jsstring) :=
  match r with
  | [] => Some (caps, s)
  | Bol :: r' =>
      match prev with
      | None => match_here r' caps prev s
      | Some _ => None
      end
  | Eol :: r' =>
      match s with
      | [] => match_here r' caps prev s
      | _ :: _ => None
      end
  | WordB :: r' =>
      if xorb (word_at prev) (word_at (hd_error s))
      then match_here r' caps prev s else None
  | Class p :: r' =>
      match s with
      | c :: s' => if p c then match_here r' caps (Some c) s' else None
      | [] => None
      end
  | Plus greedy capture p :: r' =>
      plus_run greedy p
        (fun m prev' s' =>
           match_here r' (if capture then caps ++ [m] else caps) prev' s')
        [] s
  end.

(** [s.match(r)] for a pattern without the [g] flag: the first position
    where [r] matches, scanning from the left. *)
Fixpoint regex_match (r : regex) (prev : option cu) (s : jsstring)
  : option (list jsstring * jsstring) :=
  match match_here r [] prev s with
  | Some res => Some res
  | None =>
      match s with
      | [] => None
      | c :: s' => regex_match r (Some c) s'
      end
  end.

(** Replacement patterns: literal text and [$n]. *)
Inductive tpl_part :=
| TLit (s : jsstring)
| TGroup (n : nat).

Definition expand_part (caps : list jsstring) (t : tpl_part) : jsstring :=
  match t with
  | TLit s => s
  | TGroup n => nth (n - 1) caps []
  end.

Definition expand (tpl : list tpl_part) (caps : list jsstring) : jsstring :=
  flat_map (expand_part caps) tpl.

(** [s.replace(r, tpl)] for a pattern with the [g] flag.  [skip] counts the
    code units of the last match still to be passed over; an empty match
    inserts the replacement and moves on by one code unit. *)
Fixpoint replace_scan (r : regex) (tpl : list tpl_part) (skip : nat)
         (prev : option cu) (s : jsstring) : jsstring :=
  match skip with
  | S k =>
      match s with
      | [] => []
      | c :: s' => replace_scan r tpl k (Some c) s'
      end
  | O =>
      match match_here r [] prev s with
      | Some (caps, rest) =>
          expand tpl caps ++
          match s with
          | [] => []
          | c :: s' =>
              match length s - length rest with
              | O => c :: replace_scan r tpl 0 (Some c) s'
              | S n => replace_scan r tpl n (Some c) s'
              end
          end
      | None =>
          match s with
          | [] => []
          | c :: s' => c :: replace_scan r tpl 0 (Some c) s'
          end
      end
  end.

Definition replace_all (r : regex) (tpl : list tpl_part) (s : jsstring) : jsstring :=
  replace_scan r tpl 0 None s.

(** ** escapeHTML

    [div.textContent = text; return div.innerHTML]: the HTML fragment
    serialisation of one text node, which rewrites [&], U+00A0, [<] and [>]
    and copies every other code unit. *)

Definition escape_cu (c : cu) : jsstring :=
  if cu_eqb c AMP then js "&amp;"
  else if cu_eqb c NBSP then js "&nbsp;"
  else if cu_eqb c LT then js "&lt;"
  else if cu_eqb c GT then js "&gt;"
  else [c].

Definition escapeHTML (text : jsstring) : jsstring := flat_map escape_cu text.

(** ** parseInlineMarkdown *)

Definition is_star (c : cu) : bool := cu_eqb c STAR.
Definition is_underscore (c : cu) : bool := cu_eqb c UNDERSCORE.
Definition not_star (c : cu) : bool := negb (is_star c).
Definition not_underscore (c : cu) : bool := negb (is_underscore c).
Definition not_star_nl (c : cu) : bool := negb (is_star c || cu_eqb c LF).
Definition not_underscore_nl (c : cu) : bool := negb (is_underscore c || cu_eqb c LF).

(** [/\*\*([^*]+)\*\*/g] *)
Definition re_bold_star : regex :=
  [Class is_star; Class is_star; Plus true true not_star; Class is_star; Class is_star].
(** [/__([^_]+)__/g] *)
Definition re_bold_underscore : regex :=
  [Class is_underscore; Class is_underscore; Plus true true not_underscore;
   Class is_underscore; Class is_underscore].
(** [/\b\*([^*\n]+?)\*\b/g] *)
Definition re_italic_star : regex :=
  [WordB; Class is_star; Plus false true not_star_nl; Class is_star; WordB].
(** [/\b_([^_\n]+?)_\b/g] *)
Definition re_italic_underscore : regex :=
  [WordB; Class is_underscore; Plus false true not_underscore_nl;
   Class is_underscore; WordB].

Definition STRONG_OPEN := js "<strong>".
Definition STRONG_CLOSE := js "</strong>".
Definition EM_OPEN := js "<em>".
Definition EM_CLOSE := js "</em>".

Definition tpl_strong : list tpl_part := [TLit STRONG_OPEN; TGroup 1; TLit STRONG_CLOSE].
Definition tpl_em : list tpl_part := [TLit EM_OPEN; TGroup 1; TLit EM_CLOSE].

Definition parseInlineMarkdown (text : jsstring) : jsstring :=
  let html := escapeHTML text in
  let html := replace_all re_bold_star tpl_strong html in
  let html := replace_all re_bold_underscore tpl_strong html in
  let html := replace_all re_italic_star tpl_em html in
  let html := replace_all re_italic_underscore tpl_em html in
  html.

(** ** parseMarkdownToHTML *)

(** [/^(\d+)[.)]\s+(.+)$/] *)
Definition is_step_sep (c : cu) : bool := cu_eqb c 46%N || cu_eqb c 41%N.
Definition re_numbered : regex :=
  [Bol; Plus true true is_digit; Class is_step_sep; Plus true false is_space;
   Plus true true is_dot; Eol].

(** [line.match(re_numbered)]: the captures, [None] for [null]. *)
Definition numberedMatch (line : jsstring) : option (list jsstring) :=
  match regex_match re_numbered None line with
  | Some (caps, _) => Some caps
  | None => None
  end.

(** A number in a template literal.  [Date.now()] and the step counter are
    integers far below 1e21, which print in plain decimal. *)
Definition num_to_js (z : Z) : jsstring := js (NilZero.string_of_int (Z.to_int z)).

(** [`step-${Date.now()}-${stepCounter++}`] *)
Definition step_id (now : Z) (counter : nat) : jsstring :=
  js "step-" ++ num_to_js now ++ js "-" ++ num_to_js (Z.of_nat counter).

Inductive level := H1 | H2 | H3.

(** What the loop pushes on [output], one constructor per [output.push]. *)
Inductive piece :=
| PClose
| POpen
| PBreak
| PHeading (l : level) (body : jsstring)
| PStep (id body : jsstring)
| PText (body : jsstring).

Definition heading_tag (l : level) : jsstring :=
  match l with H1 => js "h1" | H2 => js "h2" | H3 => js "h3" end.

Definition STEP_HEAD : jsstring :=
  js "<label class=" ++ [DQUOTE] ++ js "step-item" ++ [DQUOTE]
  ++ js "><input type=" ++ [DQUOTE] ++ js "checkbox" ++ [DQUOTE]
  ++ js " class=" ++ [DQUOTE] ++ js "step-checkbox" ++ [DQUOTE]
  ++ js " id=" ++ [DQUOTE].
Definition STEP_MID : jsstring :=
  [DQUOTE] ++ js "><span class=" ++ [DQUOTE] ++ js "step-text" ++ [DQUOTE] ++ js ">".
Definition STEP_TAIL : jsstring := js "</span></label>".

Definition piece_html (p : piece) : jsstring :=
  match p with
  | PClose => js "</p>"
  | POpen => js "<p>"
  | PBreak => js "<br>"
  | PHeading l body => js "<" ++ heading_tag l ++ js ">" ++ body ++ js "</" ++ heading_tag l ++ js ">"
  | PStep id body => STEP_HEAD ++ id ++ STEP_MID ++ body ++ STEP_TAIL
  | PText body => body
  end.

(** The loop variables. *)
Record render_state := {
  output : list piece;
  inParagraph : bool;
  stepCounter : nat
}.

Definition init_state : render_state :=
  {| output := []; inParagraph := false; stepCounter := 0 |}.

Definition push (p : piece) (st : render_state) : render_state :=
  {| output := output st ++ [p];
     inParagraph := inParagraph st;
     stepCounter := stepCounter st |}.

(** [if (inParagraph) { output.push('</p>'); inParagraph = false; }] *)
Definition close_paragraph (st : render_state) : render_state :=
  if inParagraph st
  then {| output := output st ++ [PClose];
          inParagraph := false;
          stepCounter := stepCounter st |}
  else st.

Definition heading (l : level) (rest : jsstring) (st : render_state) : render_state :=
  push (PHeading l (escapeHTML (parseInlineMarkdown rest))) (close_paragraph st).

Section Render.
(** [now k] is what [Date.now()] returns when it is read for the step
    numbered [k] of this call; it is read once per step. *)
Variable now : nat -> Z.

(** One iteration of the loop.  [nextLine] is computed by the script and
    never read, so it is left out. *)
Definition process_line (st : render_state) (raw : jsstring) : render_state :=
  let line := trim raw in
  if startsWith (js "### ") line then heading H3 (substring 4 line) st
  else if startsWith (js "## ") line then heading H2 (substring 3 line) st
  else if startsWith (js "# ") line then heading H1 (substring 2 line) st
  else
    match numberedMatch line with
    | Some caps =>
        let st := close_paragraph st in
        (* numberedMatch[2], the second capture *)
        let stepText := nth 1 caps [] in
        let id := step_id (now (stepCounter st)) (stepCounter st) in
        {| output := output st ++ [PStep id (parseInlineMarkdown stepText)];
           inParagraph := inParagraph st;
           stepCounter := S (stepCounter st) |}
    | None =>
        match line with
        | [] => close_paragraph st
        | _ :: _ =>
            let st :=
              if inParagraph st then push PBreak st
              else {| output := output st ++ [POpen];
                      inParagraph := true;
                      stepCounter := stepCounter st |} in
            push (PText (parseInlineMarkdown line)) st
        end
    end.

Definition render_lines (st : render_state) (lines : list jsstring) : render_state :=
  fold_left process_line lines st.

(** The pieces on [output] when the function returns. *)
Definition render_pieces (text : jsstring) : list piece :=
  output (close_paragraph (render_lines init_state (split_lines text))).

(** [output.join('')] *)
Definition parseMarkdownToHTML (text : jsstring) : jsstring :=
  flat_map piece_html (render_pieces text).
End Render.

(** ** The palette: transcript, status line, context pane, bridge *)

Fixpoint str_eqb (a b : jsstring) : bool :=
  match a, b with
  | [], [] => true
  | x :: a', y :: b' => cu_eqb x y && str_eqb a' b'
  | _, _ => false
  end.

Inductive role := User | Assistant.

(** The body of a message [div]: set through [textContent] for the user,
    through [innerHTML] for the assistant. *)
Inductive body :=
| TextContent (text : jsstring)
| InnerHTML (html : jsstring).

(** One child of [#messages]: the wrapped message and its meta line. *)
Record entry := {
  entry_role : role;
  entry_body : body;
  entry_meta : jsstring
}.

(** [#screenshotPreview] *)
Record preview := {
  img_src : jsstring;
  img_display : jsstring
}.

(** The elements the script touches, and the calls made on the bridge.
    [#screenshotPreview] may be missing from the page (the script checks);
    the other elements are taken to exist. *)
Record palette := {
  messages : list entry;
  status_text : jsstring;
  status_error : bool;
  context_text : jsstring;
  screenshotPreview : option preview;
  chatInput : jsstring;
  sendBtn_disabled : bool;
  bridge_calls : list (jsstring * jsstring)
}.

Definition BULLET : cu := 8226%N.
Definition ELLIPSIS : cu := 8230%N.

(** How a [try] block ends. *)
Inductive completion :=
| Normal (p : palette)
| Return (p : palette) (value : jsstring)
| Throw (p : palette).

Section Controller.
(** JSON numbers and the built-ins of the host language. *)
Variable num : Type.

Inductive json :=
| JNull
| JBool (b : bool)
| JNum (n : num)
| JStr (s : jsstring)
| JArr (items : list json)
| JObj (fields : list (jsstring * json)).

(** [JSON.parse]: [None] when it throws. *)
Variable JSON_parse : jsstring -> option json.
(** [JSON.stringify(v)] and [JSON.stringify(v, null, 2)]. *)
Variable JSON_stringify : json -> jsstring.
Variable JSON_stringify_indent : json -> jsstring.
(** A parsed value in a template literal, and the truth value of a number. *)
Variable to_string : json -> jsstring.
Variable num_truthy : num -> bool.
(** [nowTime()] when the message numbered [k] is appended, and
    [Date.now()] for step [i] of the rendering of that message. *)
Variable nowTime : nat -> jsstring.
Variable dateNow : nat -> nat -> Z.

Fixpoint lookup (k : jsstring) (fields : list (jsstring * json)) : option json :=
  match fields with
  | [] => None
  | (k', v) :: rest => if str_eqb k k' then Some v else lookup k rest
  end.

(** [v.text], [v.screenshot], [v.base64] on a value other than [null]:
    [None] stands for [undefined]. *)
Definition get_prop (k : jsstring) (v : json) : option json :=
  match v with
  | JObj fields => lookup k fields
  | _ => None
  end.

Definition truthy (v : json) : bool :=
  match v with
  | JNull => false
  | JBool b => b
  | JNum n => num_truthy n
  | JStr s => negb (str_eqb s [])
  | JArr _ | JObj _ => true
  end.

Definition setStatus (text : jsstring) (isError : bool) (p : palette) : palette :=
  {| messages := messages p;
     status_text := text;
     status_error := isError;
     context_text := context_text p;
     screenshotPreview := screenshotPreview p;
     chatInput := chatInput p;
     sendBtn_disabled := sendBtn_disabled p;
     bridge_calls := bridge_calls p |}.

Definition meta_line (r : role) (time : jsstring) : jsstring :=
  (match r with User => js "You" | Assistant => js "FusBuddy360" end)
  ++ js " " ++ [BULLET] ++ js " " ++ time.

Definition appendMessage (r : role) (text : jsstring) (p : palette) : palette :=
  let k := length (messages p) in
  let wrap :=
    match r with
    | Assistant => InnerHTML (parseMarkdownToHTML (dateNow k) text)
    | User => TextContent text
    end in
  {| messages := messages p ++
       [{| entry_role := r; entry_body := wrap; entry_meta := meta_line r (nowTime k) |}];
     status_text := status_text p;
     status_error := status_error p;
     context_text := context_text p;
     screenshotPreview := screenshotPreview p;
     chatInput := chatInput p;
     sendBtn_disabled := sendBtn_disabled p;
     bridge_calls := bridge_calls p |}.

Definition set_context (text : jsstring) (p : palette) : palette :=
  {| messages := messages p;
     status_text := status_text p;
     status_error := status_error p;
     context_text := text;
     screenshotPreview := screenshotPreview p;
     chatInput := chatInput p;
     sendBtn_disabled := sendBtn_disabled p;
     bridge_calls := bridge_calls p |}.

Definition set_preview (i : preview) (p : palette) : palette :=
  {| messages := messages p;
     status_text := status_text p;
     status_error := status_error p;
     context_text := context_text p;
     screenshotPreview := Some i;
     chatInput := chatInput p;
     sendBtn_disabled := sendBtn_disabled p;
     bridge_calls := bridge_calls p |}.

Definition hidden_preview : preview :=
  {| img_src := []; img_display := js "none" |}.

(** [obj && obj.screenshot ? obj.screenshot : null] *)
Definition screenshot_of (obj : json) : json :=
  if truthy obj then
    match get_prop (js "screenshot") obj with
    | Some v => if truthy v then v else JNull
    | None => JNull
    end
  else JNull.

Definition updateContext (jsonString : jsstring) (p : palette) : palette :=
  let '(obj, p) :=
    match JSON_parse jsonString with
    | Some v => (v, set_context (JSON_stringify_indent v) p)
    | None => (JNull, set_context jsonString p)
    end in
  match screenshotPreview p with
  | None => p
  | Some _ =>
      let screenshot := screenshot_of obj in
      if truthy screenshot then
        match get_prop (js "base64") screenshot with
        | Some b =>
            if truthy b then
              set_preview {| img_src := js "data:image/png;base64," ++ to_string b;
                             img_display := js "block" |} p
            else set_preview hidden_preview p
        | None => set_preview hidden_preview p
        end
      else set_preview hidden_preview p
  end.

(** The synchronous part of [sendUserQuery], up to the [await]. *)
Definition sendUserQuery (p : palette) : palette :=
  let text := trim (chatInput p) in
  match text with
  | [] => p
  | _ :: _ =>
      let p := appendMessage User text p in
      let p := {| messages := messages p;
                  status_text := js "Sending to Fusion" ++ [ELLIPSIS];
                  status_error := false;
                  context_text := context_text p;
                  screenshotPreview := screenshotPreview p;
                  chatInput := [];
                  sendBtn_disabled := true;
                  bridge_calls := bridge_calls p ++
                    [(js "userQuery", JSON_stringify (JObj [(js "text", JStr text)]))] |} in
      p
  end.

(** The rest of [sendUserQuery] once the promise settles: [Some result]
    when it resolves, [None] when it rejects. *)
Definition sendUserQuery_settled (result : option jsstring) (p : palette) : palette :=
  let p :=
    match result with
    | Some r => setStatus (js "Fusion received. (" ++ r ++ js ")") false p
    | None => setStatus (js "Failed to send message to Fusion. See console.") true p
    end in
  {| messages := messages p;
     status_text := status_text p;
     status_error := status_error p;
     context_text := context_text p;
     screenshotPreview := screenshotPreview p;
     chatInput := chatInput p;
     sendBtn_disabled := false;
     bridge_calls := bridge_calls p |}.

(** The [try] block of [fusionJavaScriptHandler.handle]. *)
Definition handle_try (action data : jsstring) (p : palette) : completion :=
  if str_eqb action (js "assistantMessage") then
    match JSON_parse data with
    | None => Throw p
    | Some JNull => Throw p
    | Some msg =>
        let text :=
          match get_prop (js "text") msg with
          | None | Some JNull => JStr (to_string msg)
          | Some v => v
          end in
        match text with
        | JStr s => Normal (setStatus (js "Ready.") false (appendMessage Assistant s p))
        | _ => Throw p
        end
    end
  else if str_eqb action (js "contextUpdate") then Normal (updateContext data p)
  else if str_eqb action (js "debugger") then Normal p
  else Return p (js "Unexpected command type: " ++ action).

Definition handle (action data : jsstring) (p : palette) : palette * jsstring :=
  match handle_try action data p with
  | Return p' v => (p', v)
  | Normal p' => (p', js "OK")
  | Throw p' =>
      (setStatus (js "Error handling message from Fusion: " ++ action) true p', js "OK")
  end.
End Controller.

Arguments JNull {num}.
Arguments JBool {num} b.
Arguments JStr {num} s.
Arguments JArr {num} items.
Arguments JObj {num} fields.

(** ** Vocabulary of the statements *)

(** Empty or made of white space only. *)
Definition blank (s : jsstring) : bool := forallb is_space s.

(** The text [t] is on display as literal text: in the context pane or as
    the [textContent] of a message. *)
Definition shows_text (t : jsstring) (p : palette) : Prop :=
  context_text p = t \/
  exists e, In e (messages p) /\ entry_body e = TextContent t.

Definition empty_palette : palette :=
  {| messages := []; status_text := []; status_error := false;
     context_text := []; screenshotPreview := Some hidden_preview;
     chatInput := []; sendBtn_disabled := false; bridge_calls := [] |}.

Definition TAB : cu := 9%N.
Definition clock0 (_ : nat) : Z := 1700000000000%Z.

(** A line without a line feed in it. *)
Definition one_line (l : jsstring) : bool := negb (existsb (cu_eqb LF) l).

(** A line that is neither a heading, nor a numbered step, nor blank. *)
Definition text_line (raw : jsstring) : bool :=
  let line := trim raw in
  negb (startsWith (js "### ") line)
  && negb (startsWith (js "## ") line)
  && negb (startsWith (js "# ") line)
  && match numberedMatch line with Some _ => false | None => true end
  && negb (blank raw).

(** Lines put back together with line feeds between them. *)
Fixpoint join_lines (ls : list jsstring) : jsstring :=
  match ls with
  | [] => []
  | l :: ls' =>
      match ls' with
      | [] => l
      | _ :: _ => l ++ LF :: join_lines ls'
      end
  end.

(** Groups of lines with one separating line between neighbours. *)
Fixpoint doc_lines (g : list jsstring) (more : list (jsstring * list jsstring))
  : list jsstring :=
  match more with
  | [] => g
  | (b, g') :: more' => g ++ b :: doc_lines g' more'
  end.

Definition paragraph_group (g : list jsstring) : bool :=
  match g with
  | [] => false
  | _ :: _ => forallb (fun l => text_line l && one_line l) g
  end.

Definition blank_line (b : jsstring) : bool := blank b && one_line b.

Definition inline_of (raw : jsstring) : piece := PText (parseInlineMarkdown (trim raw)).

(** One paragraph: its lines, inline-rendered, with breaks between them. *)
Definition paragraph (g : list jsstring) : list piece :=
  match g with
  | [] => []
  | l :: ls =>
      [POpen; inline_of l] ++ flat_map (fun x => [PBreak; inline_of x]) ls ++ [PClose]
  end.



(** A piece with its identifier blanked, to compare outputs up to identifiers. *)
Definition erase_id (p : piece) : piece :=
  match p with
  | PStep _ body => PStep [] body
  | _ => p
  end.





(** The code units that HTML reads as markup in text. *)
Definition is_markup (c : cu) : bool := cu_eqb c LT || cu_eqb c GT || cu_eqb c AMP.

(** The emphasis delimiters of the inline patterns. *)
Definition is_delim (c : cu) : bool := is_star c || is_underscore c.

Definition entities : list jsstring :=
  [js "&amp;"; js "&nbsp;"; js "&lt;"; js "&gt;"].

Definition emphasis_tags : list jsstring :=
  [STRONG_OPEN; STRONG_CLOSE; EM_OPEN; EM_CLOSE].

Definition block_tags : list jsstring :=
  [js "<p>"; js "</p>"; js "<br>";
   js "<h1>"; js "</h1>"; js "<h2>"; js "</h2>"; js "<h3>"; js "</h3>";
   STEP_HEAD; STEP_MID; STEP_TAIL].

(** Every tag the renderer writes. *)
Definition emitted_tags : list jsstring := emphasis_tags ++ block_tags.

(** Markup that is inert apart from the tags of [tags]: a sequence of
    code units that are not markup, of entities, and of tags from [tags].
    Every [<], [>] and [&] of such a text belongs to one of those tags or to
    an entity. *)
Inductive inert (tags : list jsstring) : jsstring -> Prop :=
| inert_nil : inert tags []
| inert_cu c s : is_markup c = false -> inert tags s -> inert tags (c :: s)
| inert_entity e s : In e entities -> inert tags s -> inert tags (e ++ s)
| inert_tag t s : In t tags -> inert tags s -> inert tags (t ++ s).

(** No delimiter inside a token. *)
Definition clean (toks : list jsstring) : bool :=
  forallb (forallb (fun c => negb (is_delim c))) toks.

Definition DASH : cu := 45%N.

(** What a step identifier is made of. *)
Definition id_char (c : cu) : bool :=
  in_range 97%N 122%N c || is_digit c || cu_eqb c DASH.

(** The body of every piece is inert: a heading has no live tag at all,
    a step and a paragraph line at most emphasis tags. *)
Definition piece_inert (p : piece) : Prop :=
  match p with
  | PHeading _ body => inert [] body
  | PStep id body => forallb id_char id = true /\ inert emphasis_tags body
  | PText body => inert emphasis_tags body
  | PClose | POpen | PBreak => True
  end.

(** The body of every piece comes out of [parseInlineMarkdown], which
    escapes before it substitutes. *)
Definition piece_inline (p : piece) : Prop :=
  match p with
  | PHeading _ body => exists x, body = escapeHTML (parseInlineMarkdown x)
  | PStep _ body | PText body => exists x, body = parseInlineMarkdown x
  | PClose | POpen | PBreak => True
  end.

(** The inline patterns: a match starts at a delimiter and is delimiters,
    the one captured run, delimiters. *)
Definition delim_regex (r : regex) : Prop :=
  (forall prev, match_here r [] prev [] = None) /\
  (forall prev c s, is_delim c = false -> match_here r [] prev (c :: s) = None) /\
  (forall prev s caps rest,
      match_here r [] prev s = Some (caps, rest) ->
      exists d1 cap d2,
        s = d1 ++ cap ++ d2 ++ rest /\ caps = [cap] /\
        d1 <> [] /\ d2 <> [] /\
        forallb is_delim d1 = true /\ forallb is_delim d2 = true).

(** Both hold of everything on [output]. *)
Definition pieces_ok (st : render_state) : Prop :=
  Forall piece_inert (output st) /\ Forall piece_inline (output st).



(** The parser that rejects every text, for the examples below. *)
Definition reject_all (_ : jsstring) : option (json unit) := None.
Definition no_string (_ : json unit) : jsstring := [].
Definition no_time (_ : nat) : jsstring := [].
Definition epoch (_ _ : nat) : Z := 0%Z.

(** ** The rest of the script: clock text, API keys, event wiring *)

Module Clock.

(** The filler of [padStart]: the pad string repeated and cut to [n] code
    units; [cur] is what is left of the current copy. *)
Fixpoint cycle (pad cur : jsstring) (n : nat) : jsstring :=
  match n with
  | O => []
  | S n' =>
      match cur with
      | c :: cur' => c :: cycle pad cur' n'
      | [] =>
          match pad with
          | c :: pad' => c :: cycle pad pad' n'
          | [] => []
          end
      end
  end.

(** [s.padStart(n, pad)] *)
Definition padStart (n : nat) (pad s : jsstring) : jsstring :=
  if Nat.leb n (length s) then s else cycle pad pad (n - length s) ++ s.

(** The three getters [nowTime] reads from [new Date()]. *)
Record date := {
  getHours : nat;
  getMinutes : nat;
  getSeconds : nat
}.

Definition pad (n : nat) : jsstring := padStart 2 (js "0") (num_to_js (Z.of_nat n)).

Definition nowTime (d : date) : jsstring :=
  pad (getHours d) ++ js ":" ++ pad (getMinutes d) ++ js ":" ++ pad (getSeconds d).

(** A time of day. *)
Definition valid (d : date) : Prop :=
  getHours d < 24 /\ getMinutes d < 60 /\ getSeconds d < 60.

End Clock.

(** The palette with the two key inputs, either of which may be missing
    from the page. *)
Record page := {
  pal : palette;
  openaiKeyInput : option jsstring;
  geminiKeyInput : option jsstring
}.

(** What the listeners and the bridge deliver to the script. *)
Inductive event :=
| DOMContentLoaded
| EditChat (value : jsstring)
| EditKey (provider : jsstring) (value : jsstring)
| Keydown (key : jsstring) (shiftKey : bool)
| ClickSend
| ClickSaveOpenAI
| ClickSaveGemini
| QuerySettled (result : option jsstring)
| SaveSettled (provider : jsstring) (result : option jsstring)
| Inbound (action data : jsstring).

Definition GREETING : jsstring :=
  js "Hi " ++ [8212%N] ++ js " I" ++ [8217%N]
  ++ js "m FusBuddy360. Ask me how to do something in Fusion 360.".

Section Page.
Variable num : Type.
Variable JSON_parse : jsstring -> option (json num).
Variable JSON_stringify : json num -> jsstring.
Variable JSON_stringify_indent : json num -> jsstring.
Variable to_string : json num -> jsstring.
Variable num_truthy : num -> bool.
Variable nowTime : nat -> jsstring.
Variable dateNow : nat -> nat -> Z.

Definition on_pal (f : palette -> palette) (pg : page) : page :=
  {| pal := f (pal pg);
     openaiKeyInput := openaiKeyInput pg;
     geminiKeyInput := geminiKeyInput pg |}.

(** [adsk.fusionSendData(action, payload)] *)
Definition fusionSendData (action payload : jsstring) (p : palette) : palette :=
  {| messages := messages p;
     status_text := status_text p;
     status_error := status_error p;
     context_text := context_text p;
     screenshotPreview := screenshotPreview p;
     chatInput := chatInput p;
     sendBtn_disabled := sendBtn_disabled p;
     bridge_calls := bridge_calls p ++ [(action, payload)] |}.

Definition set_chatInput (value : jsstring) (p : palette) : palette :=
  {| messages := messages p;
     status_text := status_text p;
     status_error := status_error p;
     context_text := context_text p;
     screenshotPreview := screenshotPreview p;
     chatInput := value;
     sendBtn_disabled := sendBtn_disabled p;
     bridge_calls := bridge_calls p |}.

Definition is_openai (provider : jsstring) : bool := str_eqb provider (js "openai").

(** [provider === "openai" ? "OpenAI" : "Gemini"] *)
Definition provider_name (provider : jsstring) : jsstring :=
  if is_openai provider then js "OpenAI" else js "Gemini".

(** [byId(provider === "openai" ? "openaiKeyInput" : "geminiKeyInput")] *)
Definition key_input (provider : jsstring) (pg : page) : option jsstring :=
  if is_openai provider then openaiKeyInput pg else geminiKeyInput pg.

Definition set_key_input (provider value : jsstring) (pg : page) : page :=
  if is_openai provider then
    {| pal := pal pg;
       openaiKeyInput := match openaiKeyInput pg with Some _ => Some value | None => None end;
       geminiKeyInput := geminiKeyInput pg |}
  else
    {| pal := pal pg;
       openaiKeyInput := openaiKeyInput pg;
       geminiKeyInput := match geminiKeyInput pg with Some _ => Some value | None => None end |}.

(** The synchronous part of [saveApiKey], up to the [await]. *)
Definition saveApiKey (provider : jsstring) (pg : page) : page :=
  let key := trim (match key_input provider pg with Some v => v | None => [] end) in
  match key with
  | [] =>
      on_pal (setStatus (js "Enter a " ++ provider_name provider
                         ++ js " API key before saving.") true) pg
  | _ :: _ =>
      let pg := on_pal (setStatus (js "Saving " ++ provider_name provider
                                   ++ js " API key" ++ [ELLIPSIS]) false) pg in
      on_pal (fusionSendData (js "saveApiKey")
                (JSON_stringify (JObj [(js "apiKey", JStr key);
                                       (js "provider", JStr provider)]))) pg
  end.

(** The rest of [saveApiKey] once the promise settles: [Some result] when
    it resolves, [None] when it rejects. *)
Definition saveApiKey_settled (provider : jsstring) (result : option jsstring)
           (pg : page) : page :=
  match result with
  | Some r =>
      let pg := on_pal (setStatus (match r with
                                   | [] => js "API key saved."
                                   | _ :: _ => r
                                   end) false) pg in
      set_key_input provider [] pg
  | None => on_pal (setStatus (js "Failed to save API key. See console.") true) pg
  end.

(** One turn of the event loop: a listener of the script, the rest of an
    [async] function, or the bridge calling [handle].  Editing a field is
    the browser's doing. *)
Definition dispatch (e : event) (pg : page) : page :=
  match e with
  | DOMContentLoaded =>
      on_pal (fun p => setStatus (js "Ready.") false
                         (appendMessage nowTime dateNow Assistant GREETING p)) pg
  | EditChat value => on_pal (set_chatInput value) pg
  | EditKey provider value => set_key_input provider value pg
  | Keydown key shiftKey =>
      if str_eqb key (js "Enter") && negb shiftKey
      then on_pal (sendUserQuery JSON_stringify nowTime dateNow) pg
      else pg
  | ClickSend => on_pal (sendUserQuery JSON_stringify nowTime dateNow) pg
  | ClickSaveOpenAI => saveApiKey (js "openai") pg
  | ClickSaveGemini => saveApiKey (js "gemini") pg
  | QuerySettled result => on_pal (sendUserQuery_settled result) pg
  | SaveSettled provider result => saveApiKey_settled provider result pg
  | Inbound action data =>
      on_pal (fun p => fst (handle JSON_parse JSON_stringify_indent to_string
                              num_truthy nowTime dateNow action data p)) pg
  end.

(** The events of a session, in order. *)
Definition run (events : list event) (pg : page) : page :=
  fold_left (fun pg e => dispatch e pg) events pg.
End Page.




(** Where the scan of the pieces stands: outside a paragraph, inside one
    and waiting for text (after [<p>] or [<br>]), or inside after text. *)
Inductive pstate := Outside | Expect | Inside.

(** The paragraph tags are well nested: [<p>], text, then [<br>] and text
    any number of times, then [</p>]; headings and steps only outside. *)
Fixpoint nesting (st : pstate) (ps : list piece) : option pstate :=
  match ps with
  | [] => Some st
  | p :: ps' =>
      match p, st with
      | POpen, Outside => nesting Expect ps'
      | PText _, Expect => nesting Inside ps'
      | PBreak, Inside => nesting Expect ps'
      | PClose, Inside => nesting Outside ps'
      | PHeading _ _, Outside => nesting Outside ps'
      | PStep _ _, Outside => nesting Outside ps'
      | _, _ => None
      end
  end.

Definition pstate_of (inParagraph : bool) : pstate :=
  if inParagraph then Inside else Outside.

(** The first state's output is [o] followed by the second state's, up to
    identifiers, and both have a paragraph open or both have none. *)
Definition continues (o : list piece) (st1 st2 : render_state) : Prop :=
  map erase_id (output st1) = o ++ map erase_id (output st2) /\
  inParagraph st1 = inParagraph st2.

(** The text with every line feed turned into carriage return, line feed. *)
Definition to_crlf (s : jsstring) : jsstring :=
  flat_map (fun c => if cu_eqb c LF then [13%N; LF] else [c]) s.

(** The special code units of [escapeHTML]. *)
Definition is_special (c : cu) : bool :=
  cu_eqb c AMP || cu_eqb c NBSP || cu_eqb c LT || cu_eqb c GT.

(** Text without emphasis delimiters. *)
Definition no_delims (s : jsstring) : bool := forallb (fun c => negb (is_delim c)) s.

(** The code unit before the position reached after passing over [tok]. *)
Definition prev_after (prev : option cu) (tok : jsstring) : option cu :=
  fold_left (fun _ c => Some c) tok prev.

(** The two bold patterns and the two italic patterns differ only in the
    delimiter class. *)
Definition bold_re (isd notd : cu -> bool) : regex :=
  [Class isd; Class isd; Plus true true notd; Class isd; Class isd].
Definition italic_re (isd notd_nl : cu -> bool) : regex :=
  [WordB; Class isd; Plus false true notd_nl; Class isd; WordB].

(** Text that can stand inside an italic run: no delimiter, no line feed. *)
Definition italic_body (s : jsstring) : bool :=
  forallb (fun c => negb (is_delim c) && negb (cu_eqb c LF)) s.


(** The output so far is well nested and agrees with the paragraph flag. *)
Definition nested (st : render_state) : Prop :=
  nesting Outside (output st) = Some (pstate_of (inParagraph st)).

(** A payload with a text, a parser that knows just that payload, and a
    page, for the examples. *)
Definition hi_payload : jsstring :=
  js "{" ++ [DQUOTE] ++ js "text" ++ [DQUOTE] ++ js ":" ++ [DQUOTE] ++ js "**hi**"
  ++ [DQUOTE] ++ js "}".

Definition demo_parse (data : jsstring) : option (json unit) :=
  if str_eqb data hi_payload then Some (JObj [(js "text", JStr (js "**hi**"))])
  else None.

Definition demo_page : page :=
  {| pal := {| messages := []; status_text := []; status_error := false;
               context_text := []; screenshotPreview := Some hidden_preview;
               chatInput := js " hi "; sendBtn_disabled := false;
               bridge_calls := [] |};
     openaiKeyInput := Some (js " sk-1 ");
     geminiKeyInput := None |}.

(** * Properties *)

Unset Implicit Arguments.

(** ** Strings *)

Lemma cu_eqb_eq (a b : cu) : cu_eqb a b = true <-> a = b.
Proof. apply N.eqb_eq. Qed.

Lemma str_eqb_eq (a b : jsstring) : str_eqb a b = true <-> a = b.
Proof.
  revert b; induction a as [|x a IH]; intros [|y b]; simpl; split; intro H;
    try reflexivity; try discriminate.
  - apply andb_true_iff in H as [H1 H2].
    apply cu_eqb_eq in H1. apply IH in H2. now subst.
  - injection H as -> ->. apply andb_true_iff; split.
    + now apply cu_eqb_eq.
    + now apply IH.
Qed.

Lemma str_eqb_neq (a b : jsstring) : a <> b -> str_eqb a b = false.
Proof.
  intro H. destruct (str_eqb a b) eqn:E; [|reflexivity].
  apply str_eqb_eq in E. contradiction.
Qed.

Lemma dropWhile_nil_iff (p : cu -> bool) (s : jsstring) :
  dropWhile p s = [] <-> forallb p s = true.
Proof.
  induction s as [|c s IH]; simpl.
  - tauto.
  - destruct (p c); simpl; [exact IH|]. split; discriminate.
Qed.

Lemma trim_nil_iff (s : jsstring) : trim s = [] <-> blank s = true.
Proof.
  unfold trim, trimEnd, trimStart, blank. split.
  - intro H. apply dropWhile_nil_iff.
    destruct (dropWhile is_space s) as [|c t] eqn:E; [reflexivity|].
    exfalso.
    assert (Hr : dropWhile is_space (rev (c :: t)) = []).
    { apply (f_equal (@rev cu)) in H. rewrite rev_involutive in H. exact H. }
    apply dropWhile_nil_iff in Hr. rewrite forallb_forall in Hr.
    assert (Hc : is_space c = true) by (apply Hr, in_rev; rewrite rev_involutive; now left).
    clear - E Hc. induction s as [|x s IH]; simpl in E; [discriminate|].
    destruct (is_space x) eqn:Ex; [now apply IH|].
    injection E as -> _. congruence.
  - intro H. apply dropWhile_nil_iff in H. now rewrite H.
Qed.

(** ** Trimming *)

Lemma dropWhile_app_all (p : cu -> bool) (ws s : jsstring) :
  forallb p ws = true -> dropWhile p (ws ++ s) = dropWhile p s.
Proof.
  induction ws as [|c ws IH]; simpl; [reflexivity|].
  intro H. apply andb_true_iff in H as [Hc Hws]. rewrite Hc. now apply IH.
Qed.

Lemma dropWhile_app_some (p : cu -> bool) (s t : jsstring) :
  forallb p s = false -> dropWhile p (s ++ t) = dropWhile p s ++ t.
Proof.
  induction s as [|c s IH]; simpl; [discriminate|].
  destruct (p c); simpl; [exact IH|reflexivity].
Qed.

Lemma forallb_rev (p : cu -> bool) (s : jsstring) :
  forallb p (rev s) = forallb p s.
Proof.
  induction s as [|c s IH]; simpl; [reflexivity|].
  rewrite forallb_app, IH. simpl. rewrite andb_true_r. apply andb_comm.
Qed.

Lemma trimEnd_app_blank (s ws : jsstring) :
  blank ws = true -> trimEnd (s ++ ws) = trimEnd s.
Proof.
  intro H. unfold trimEnd. rewrite rev_app_distr, dropWhile_app_all; [reflexivity|].
  now rewrite forallb_rev.
Qed.

Lemma trim_padding (ws1 s ws2 : jsstring) :
  blank ws1 = true -> blank ws2 = true -> trim (ws1 ++ s ++ ws2) = trim s.
Proof.
  intros H1 H2. unfold trim, trimStart. rewrite dropWhile_app_all by exact H1.
  destruct (forallb is_space s) eqn:E.
  - rewrite dropWhile_app_all by exact E.
    apply dropWhile_nil_iff in E, H2. now rewrite E, H2.
  - rewrite dropWhile_app_some by exact E. now apply trimEnd_app_blank.
Qed.

Lemma dropWhile_head (p : cu -> bool) (s : jsstring) (c : cu) (t : jsstring) :
  dropWhile p s = c :: t -> p c = false.
Proof.
  induction s as [|x s IH]; simpl; [discriminate|].
  destruct (p x) eqn:E; [exact IH|]. intros [= <- _]. exact E.
Qed.

Lemma dropWhile_fixed (p : cu -> bool) (s : jsstring) :
  dropWhile p (dropWhile p s) = dropWhile p s.
Proof.
  destruct (dropWhile p s) as [|c t] eqn:E; [reflexivity|].
  apply dropWhile_head in E. simpl. now rewrite E.
Qed.

Lemma dropWhile_suffix (p : cu -> bool) (s : jsstring) :
  exists ws, s = ws ++ dropWhile p s /\ forallb p ws = true.
Proof.
  induction s as [|c s [ws [IH1 IH2]]]; simpl.
  - now exists [].
  - destruct (p c) eqn:E.
    + exists (c :: ws). simpl. rewrite E, IH2. split; [now f_equal|reflexivity].
    + now exists [].
Qed.

(** The trimmed line starts with a code unit that is not white space. *)
Lemma trim_head (s : jsstring) (c : cu) (t : jsstring) :
  trim s = c :: t -> is_space c = false.
Proof.
  unfold trim, trimEnd, trimStart. intro H.
  destruct (dropWhile is_space s) as [|x u] eqn:E; [discriminate H|].
  pose proof (dropWhile_head _ _ _ _ E) as Hx.
  destruct (dropWhile_suffix is_space (rev (x :: u))) as [ws [Hw1 Hw2]].
  apply (f_equal (@rev cu)) in Hw1.
  rewrite rev_involutive, rev_app_distr, H in Hw1.
  injection Hw1 as <- _. exact Hx.
Qed.


Lemma trimStart_fixed (s : jsstring) (c : cu) (t : jsstring) :
  s = c :: t -> is_space c = false -> trimStart s = s.
Proof. intros -> H. unfold trimStart. simpl. now rewrite H. Qed.

Lemma trim_idempotent (s : jsstring) : trim (trim s) = trim s.
Proof.
  destruct (trim s) as [|c t] eqn:E; [reflexivity|].
  pose proof (trim_head _ _ _ E) as Hc.
  unfold trim at 1. rewrite (trimStart_fixed _ _ _ eq_refl Hc).
  rewrite <- E. unfold trim, trimEnd. now rewrite rev_involutive, dropWhile_fixed.
Qed.

(** ** Line classification *)

Lemma process_line_trim (now : nat -> Z) (st : render_state) (raw : jsstring) :
  process_line now st (trim raw) = process_line now st raw.
Proof. unfold process_line. now rewrite trim_idempotent. Qed.

Lemma process_line_blank (now : nat -> Z) (st : render_state) (raw : jsstring) :
  blank raw = true -> process_line now st raw = close_paragraph st.
Proof.
  intro H. apply trim_nil_iff in H. unfold process_line. now rewrite H.
Qed.

Lemma render_lines_trim (now : nat -> Z) (lines : list jsstring) (st : render_state) :
  render_lines now st (map trim lines) = render_lines now st lines.
Proof.
  revert st. induction lines as [|l ls IH]; intro st; simpl; [reflexivity|].
  now rewrite process_line_trim, IH.
Qed.




(** ** The matcher *)

Lemma plus_run_stuck (R : Type) (g : bool) (p : cu -> bool)
      (k : jsstring -> option cu -> jsstring -> option R) (acc s : jsstring) :
  match s with [] => True | c :: _ => p c = false end ->
  plus_run g p k acc s = None.
Proof.
  destruct s as [|c s]; simpl; [reflexivity|]. now intros ->.
Qed.

(** A greedy run that can take all of [run] and no more, and whose
    continuation then succeeds, stops exactly there. *)
Lemma plus_run_greedy_max (R : Type) (p : cu -> bool)
      (k : jsstring -> option cu -> jsstring -> option R)
      (run rest : jsstring) (r : R) :
  forall acc,
    run <> [] ->
    forallb p run = true ->
    match rest with [] => True | c :: _ => p c = false end ->
    k (acc ++ run) (Some (last run 0%N)) rest = Some r ->
    plus_run true p k acc (run ++ rest) = Some r.
Proof.
  induction run as [|c run IH]; intros acc Hne Hall Hrest Hk; [contradiction|].
  simpl in Hall. apply andb_true_iff in Hall as [Hc Hall].
  simpl app. simpl plus_run. rewrite Hc.
  destruct run as [|c' run'].
  - simpl app. rewrite plus_run_stuck by exact Hrest. exact Hk.
  - rewrite (IH (acc ++ [c])); [reflexivity|discriminate|exact Hall|exact Hrest|].
    rewrite <- app_assoc. exact Hk.
Qed.

Lemma regex_match_here (r : regex) (prev : option cu) (s : jsstring)
      (res : list jsstring * jsstring) :
  match_here r [] prev s = Some res -> regex_match r prev s = Some res.
Proof. intro H. destruct s; simpl; now rewrite H. Qed.

Lemma step_sep_not_digit (c : cu) : is_step_sep c = true -> is_digit c = false.
Proof.
  unfold is_step_sep, cu_eqb. intro H. apply orb_true_iff in H.
  destruct H as [H | H]; apply N.eqb_eq in H; subst; reflexivity.
Qed.

(** Digits, a separator, white space, then text on one line: the pattern
    matches and captures the digits and the text. *)
Lemma numberedMatch_shape (digits : jsstring) (sep : cu) (ws rest : jsstring) :
  digits <> [] -> forallb is_digit digits = true ->
  is_step_sep sep = true ->
  ws <> [] -> forallb is_space ws = true ->
  rest <> [] -> forallb is_dot rest = true ->
  is_space (hd 0%N rest) = false ->
  numberedMatch (digits ++ sep :: ws ++ rest) = Some [digits; rest].
Proof.
  intros Hd1 Hd2 Hsep Hw1 Hw2 Hr1 Hr2 Hr3.
  unfold numberedMatch.
  rewrite (@regex_match_here re_numbered None _ ([digits; rest], [])); [reflexivity|].
  unfold re_numbered. cbn [match_here].
  apply plus_run_greedy_max; try assumption.
  { now apply step_sep_not_digit. }
  cbn [match_here app]. rewrite Hsep.
  apply plus_run_greedy_max; try assumption.
  { destruct rest; [contradiction|exact Hr3]. }
  cbn [match_here app].
  rewrite <- (app_nil_r rest) at 1.
  apply plus_run_greedy_max; try assumption; [exact I|].
  reflexivity.
Qed.

Lemma digit_not_hash (d : cu) : is_digit d = true -> cu_eqb 35%N d = false.
Proof.
  unfold is_digit, in_range, cu_eqb. intro H.
  destruct (N.eqb_spec 35 d) as [<-|]; [discriminate H|reflexivity].
Qed.

Lemma digit_line_not_heading (d : cu) (s : jsstring) :
  is_digit d = true ->
  startsWith (js "### ") (d :: s) = false /\
  startsWith (js "## ") (d :: s) = false /\
  startsWith (js "# ") (d :: s) = false.
Proof.
  intro H.
  change (js "### ") with (35%N :: js "## ").
  change (js "## ") with (35%N :: js "# ").
  change (js "# ") with (35%N :: js " ").
  cbn [startsWith]. now rewrite (digit_not_hash _ H).
Qed.

Lemma close_paragraph_output (st : render_state) :
  output (close_paragraph st) = output st ++ (if inParagraph st then [PClose] else []).
Proof.
  unfold close_paragraph. destruct (inParagraph st); simpl; [reflexivity|].
  now rewrite app_nil_r.
Qed.

Lemma close_paragraph_closed (st : render_state) :
  inParagraph (close_paragraph st) = false.
Proof. unfold close_paragraph. destruct (inParagraph st) eqn:E; simpl; congruence. Qed.

Lemma close_paragraph_counter (st : render_state) :
  stepCounter (close_paragraph st) = stepCounter st.
Proof. unfold close_paragraph. now destruct (inParagraph st). Qed.

(** ** Step identifiers *)

Lemma js_inj (a b : string) : js a = js b -> a = b.
Proof.
  unfold js. intro H.
  rewrite <- (string_of_list_ascii_of_string a), <- (string_of_list_ascii_of_string b).
  f_equal. revert H. generalize (list_ascii_of_string a) (list_ascii_of_string b).
  induction l as [|x l IH]; intros [|y l']; simpl; intro H; try discriminate; [reflexivity|].
  injection H as Hx Hl. f_equal; [|now apply IH].
  rewrite <- (ascii_N_embedding x), <- (ascii_N_embedding y). now f_equal.
Qed.

Lemma to_int_proper (z : Z) : Z.to_int z <> Decimal.Pos Decimal.Nil /\ Z.to_int z <> Decimal.Neg Decimal.Nil.
Proof.
  split; intro H; pose proof (f_equal Z.of_int H) as H';
    rewrite DecimalZ.of_to in H'; simpl in H'; subst z; discriminate H.
Qed.

Lemma num_to_js_inj (a b : Z) : num_to_js a = num_to_js b -> a = b.
Proof.
  unfold num_to_js. intro H. apply js_inj in H.
  apply DecimalZ.to_int_inj.
  destruct (to_int_proper a) as [Ha1 Ha2], (to_int_proper b) as [Hb1 Hb2].
  pose proof (NilZero.isi _ Ha1 Ha2) as Ia. pose proof (NilZero.isi _ Hb1 Hb2) as Ib.
  rewrite H in Ia. congruence.
Qed.

Lemma uint_digits (d : Decimal.uint) :
  forallb is_digit (js (NilEmpty.string_of_uint d)) = true.
Proof. induction d; simpl; try reflexivity; exact IHd. Qed.

Lemma counter_digits (k : nat) : forallb is_digit (num_to_js (Z.of_nat k)) = true.
Proof.
  unfold num_to_js. destruct (Z.of_nat k) eqn:E; simpl.
  - reflexivity.
  - unfold NilZero.string_of_uint. destruct (Pos.to_uint p) eqn:Ep;
      try (rewrite <- Ep; apply uint_digits). reflexivity.
  - lia.
Qed.

Lemma digits_no_dash (s : jsstring) : forallb is_digit s = true -> ~ In DASH s.
Proof.
  intros H Hin. rewrite forallb_forall in H. apply H in Hin. discriminate Hin.
Qed.

Lemma split_at_last (sep : cu) (x1 y1 x2 y2 : jsstring) :
  x1 ++ sep :: y1 = x2 ++ sep :: y2 ->
  ~ In sep y1 -> ~ In sep y2 -> x1 = x2 /\ y1 = y2.
Proof.
  revert x2. induction x1 as [|a x1 IH]; intros [|b x2] H H1 H2; simpl in H.
  - injection H as ->. now split.
  - injection H as <- ->. exfalso. apply H1, in_or_app. right. now left.
  - injection H as -> <-. exfalso. apply H2, in_or_app. right. now left.
  - injection H as -> H. destruct (IH _ H H1 H2) as [-> ->]. now split.
Qed.

(** An identifier determines the clock reading and the counter it was
    made from. *)
Lemma step_id_inj (t1 t2 : Z) (k1 k2 : nat) :
  step_id t1 k1 = step_id t2 k2 -> t1 = t2 /\ k1 = k2.
Proof.
  unfold step_id. intro H. apply app_inv_head in H.
  change (js "-" ++ ?x) with (DASH :: x) in H.
  apply split_at_last in H; try (apply digits_no_dash, counter_digits).
  destruct H as [Ht Hk]. apply num_to_js_inj in Ht, Hk. split; [exact Ht|lia].
Qed.

(** ** Numbered steps *)

Lemma process_line_step (now : nat -> Z) (st : render_state)
      (raw digits : jsstring) (sep : cu) (ws rest : jsstring) :
  trim raw = digits ++ sep :: ws ++ rest ->
  digits <> [] -> forallb is_digit digits = true ->
  is_step_sep sep = true ->
  ws <> [] -> forallb is_space ws = true ->
  rest <> [] -> forallb is_dot rest = true ->
  is_space (hd 0%N rest) = false ->
  process_line now st raw =
    {| output := output st ++ (if inParagraph st then [PClose] else []) ++
                 [PStep (step_id (now (stepCounter st)) (stepCounter st))
                        (parseInlineMarkdown rest)];
       inParagraph := false;
       stepCounter := S (stepCounter st) |}.
Proof.
  intros Ht Hd1 Hd2 Hsep Hw1 Hw2 Hr1 Hr2 Hr3.
  unfold process_line. rewrite Ht.
  rewrite numberedMatch_shape by assumption.
  destruct digits as [|d digits]; [contradiction|].
  simpl in Hd2. apply andb_true_iff in Hd2 as [Hd _].
  change ((d :: digits) ++ sep :: ws ++ rest) with (d :: (digits ++ sep :: ws ++ rest)).
  destruct (digit_line_not_heading d (digits ++ sep :: ws ++ rest) Hd) as (-> & -> & ->).
  cbn [nth].
  rewrite close_paragraph_output, close_paragraph_closed, close_paragraph_counter.
  now rewrite app_assoc.
Qed.

(** C4. A line that, once trimmed, is digits, then [.] or [)], then white
    space, then text closes the open paragraph and adds one step whose text
    is the inline rendering of that text, the numeral and separator gone,
    under the identifier made from the clock and the step counter; the two
    lines [1. Do X] and [2. Do Y] give just two steps with the texts
    [Do X] and [Do Y] and different identifiers. *)
Theorem numbered_line_emits_step (now : nat -> Z) :
  (forall st raw digits sep ws rest,
      trim raw = digits ++ sep :: ws ++ rest ->
      digits <> [] -> forallb is_digit digits = true ->
      is_step_sep sep = true ->
      ws <> [] -> forallb is_space ws = true ->
      rest <> [] -> forallb is_dot rest = true ->
      is_space (hd 0%N rest) = false ->
      process_line now st raw =
        {| output := output st ++ (if inParagraph st then [PClose] else []) ++
                     [PStep (step_id (now (stepCounter st)) (stepCounter st))
                            (parseInlineMarkdown rest)];
           inParagraph := false;
           stepCounter := S (stepCounter st) |}) /\
  (forall c, is_step_sep c = true <-> c = 46%N \/ c = 41%N) /\
  render_pieces now (js "1. Do X" ++ [LF] ++ js "2. Do Y")
  = [PStep (step_id (now 0) 0) (js "Do X"); PStep (step_id (now 1) 1) (js "Do Y")] /\
  step_id (now 0) 0 <> step_id (now 1) 1.
Proof.
  split; [|split; [|split]].
  - intros st raw digits sep ws rest. apply process_line_step.
  - intro c. unfold is_step_sep, cu_eqb. rewrite orb_true_iff, !N.eqb_eq. tauto.
  - reflexivity.
  - intro H. apply step_id_inj in H. destruct H as [_ H]. discriminate H.
Qed.

Lemma numbered_line_emits_step_witness :
  trim (js "  12)  fit the *lid* ") = js "12" ++ 41%N :: js "  " ++ js "fit the *lid*" /\
  process_line clock0 (push (PText (js "a")) {| output := [POpen]; inParagraph := true; stepCounter := 3 |})
               (js "  12)  fit the *lid* ")
  = {| output := [POpen; PText (js "a"); PClose;
                  PStep (js "step-1700000000000-3") (js "fit the *lid*")];
       inParagraph := false;
       stepCounter := 4 |}.
Proof.
  split; [reflexivity|].
  destruct (numbered_line_emits_step clock0) as [H _].
  rewrite (H _ (js "  12)  fit the *lid* ") (js "12") 41%N (js "  ") (js "fit the *lid*"));
    try reflexivity; discriminate.
Defined.

(** The text of a step is what [.+] takes: a carriage return inside the
    line keeps the pattern from matching, and the line is paragraph text. *)
Lemma numbered_text_has_no_line_terminator (now : nat -> Z) :
  numberedMatch (js "1. a" ++ [13%N] ++ js "b") = None /\
  render_pieces now (js "1. a" ++ [13%N] ++ js "b")
  = [POpen; PText (js "1. a" ++ [13%N] ++ js "b"); PClose].
Proof. split; reflexivity. Qed.

(** ** Paragraphs *)

Lemma split_lines_app (l t : jsstring) :
  one_line l = true -> split_lines (l ++ LF :: t) = l :: split_lines t.
Proof.
  unfold one_line. induction l as [|c l IH]; simpl; intro H.
  - reflexivity.
  - rewrite negb_true_iff in H. apply orb_false_iff in H as [Hc Hl].
    assert (Hc' : cu_eqb c LF = false).
    { unfold cu_eqb in *. now rewrite N.eqb_sym. }
    rewrite Hc', IH; [reflexivity|]. now rewrite Hl.
Qed.

Lemma split_lines_one (l : jsstring) : one_line l = true -> split_lines l = [l].
Proof.
  unfold one_line. induction l as [|c l IH]; simpl; intro H.
  - reflexivity.
  - rewrite negb_true_iff in H. apply orb_false_iff in H as [Hc Hl].
    assert (Hc' : cu_eqb c LF = false).
    { unfold cu_eqb in *. now rewrite N.eqb_sym. }
    rewrite Hc', IH; [reflexivity|]. now rewrite Hl.
Qed.

Lemma split_join_lines (ls : list jsstring) :
  ls <> [] -> forallb one_line ls = true -> split_lines (join_lines ls) = ls.
Proof.
  induction ls as [|l ls IH]; intros Hne H; [contradiction|].
  simpl in H. apply andb_true_iff in H as [Hl Hls].
  destruct ls as [|l' ls'].
  - simpl. now apply split_lines_one.
  - change (join_lines (l :: l' :: ls')) with (l ++ LF :: join_lines (l' :: ls')).
    rewrite split_lines_app by exact Hl. f_equal. apply IH; [discriminate|exact Hls].
Qed.

Lemma process_text_line (now : nat -> Z) (st : render_state) (raw : jsstring) :
  text_line raw = true ->
  process_line now st raw =
    {| output := output st ++ [if inParagraph st then PBreak else POpen; inline_of raw];
       inParagraph := true;
       stepCounter := stepCounter st |}.
Proof.
  unfold text_line, process_line. intro H.
  apply andb_true_iff in H as [H Hb]. apply andb_true_iff in H as [H Hn].
  apply andb_true_iff in H as [H H1]. apply andb_true_iff in H as [H3 H2].
  rewrite negb_true_iff in H3, H2, H1, Hb.
  rewrite H3, H2, H1.
  destruct (numberedMatch (trim raw)); [discriminate|].
  destruct (trim raw) as [|c t] eqn:E.
  - apply trim_nil_iff in E. congruence.
  - unfold inline_of. rewrite E. destruct st as [o [|] k]; unfold push; simpl;
      now rewrite <- app_assoc.
Qed.

Lemma render_text_lines (now : nat -> Z) (ls : list jsstring) :
  forall st,
    forallb text_line ls = true ->
    inParagraph st = true ->
    render_lines now st ls =
      {| output := output st ++ flat_map (fun x => [PBreak; inline_of x]) ls;
         inParagraph := true;
         stepCounter := stepCounter st |}.
Proof.
  induction ls as [|l ls IH]; intros st H Hin; simpl.
  - rewrite app_nil_r. destruct st; simpl in *; now subst.
  - simpl in H. apply andb_true_iff in H as [Hl Hls].
    rewrite process_text_line by exact Hl. rewrite IH by (exact Hls || reflexivity).
    simpl. rewrite Hin. now rewrite <- app_assoc.
Qed.

Lemma forallb_both (f h : jsstring -> bool) (ls : list jsstring) :
  forallb (fun x => f x && h x) ls = forallb f ls && forallb h ls.
Proof.
  induction ls as [|l ls IH]; simpl; [reflexivity|].
  rewrite IH. destruct (f l), (h l), (forallb f ls); reflexivity.
Qed.

Lemma paragraph_group_lines (g : list jsstring) :
  paragraph_group g = true ->
  g <> [] /\ forallb text_line g = true /\ forallb one_line g = true.
Proof.
  unfold paragraph_group. destruct g as [|l g]; [discriminate|].
  rewrite forallb_both. intro H. apply andb_true_iff in H.
  split; [discriminate|exact H].
Qed.


Lemma render_lines_app (now : nat -> Z) (st : render_state) (l1 l2 : list jsstring) :
  render_lines now st (l1 ++ l2) = render_lines now (render_lines now st l1) l2.
Proof. unfold render_lines. apply fold_left_app. Qed.

Lemma render_group (now : nat -> Z) (g : list jsstring) (st : render_state) :
  paragraph_group g = true ->
  inParagraph st = false ->
  close_paragraph (render_lines now st g) =
    {| output := output st ++ paragraph g;
       inParagraph := false;
       stepCounter := stepCounter st |}.
Proof.
  intros Hg Hst. apply paragraph_group_lines in Hg as (Hne & Ht & _).
  destruct g as [|l ls]; [contradiction|].
  simpl in Ht. apply andb_true_iff in Ht as [Hl Hls].
  change (render_lines now st (l :: ls))
    with (render_lines now (process_line now st l) ls).
  rewrite process_text_line by exact Hl.
  rewrite render_text_lines by (exact Hls || reflexivity).
  rewrite Hst. unfold close_paragraph, paragraph. simpl.
  now rewrite <- !app_assoc.
Qed.

Lemma render_doc (now : nat -> Z) (more : list (jsstring * list jsstring)) :
  forall g st,
    inParagraph st = false ->
    forallb paragraph_group (g :: map snd more) = true ->
    forallb blank_line (map fst more) = true ->
    close_paragraph (render_lines now st (doc_lines g more)) =
      {| output := output st ++ paragraph g ++
                   flat_map (fun bg => paragraph (snd bg)) more;
         inParagraph := false;
         stepCounter := stepCounter st |}.
Proof.
  induction more as [|[b g'] more IH]; intros g st Hst Hg Hb.
  - simpl in *. rewrite andb_true_r in Hg. rewrite app_nil_r.
    now apply render_group.
  - simpl in Hg, Hb.
    apply andb_true_iff in Hg as [Hg Hgs]. apply andb_true_iff in Hb as [Hb Hbs].
    unfold blank_line in Hb. apply andb_true_iff in Hb as [Hb _].
    change (doc_lines g ((b, g') :: more)) with (g ++ b :: doc_lines g' more).
    rewrite render_lines_app.
    change (render_lines now ?s (b :: ?d))
      with (render_lines now (process_line now s b) d).
    rewrite process_line_blank by exact Hb.
    rewrite (render_group now g st Hg Hst).
    rewrite IH; [|reflexivity|exact Hgs|exact Hbs].
    simpl. now rewrite <- !app_assoc.
Qed.

Lemma doc_lines_one_line (more : list (jsstring * list jsstring)) :
  forall g,
    forallb paragraph_group (g :: map snd more) = true ->
    forallb blank_line (map fst more) = true ->
    doc_lines g more <> [] /\ forallb one_line (doc_lines g more) = true.
Proof.
  induction more as [|[b g'] more IH]; intros g Hg Hb; simpl in Hg, Hb.
  - apply andb_true_iff in Hg as [Hg _].
    apply paragraph_group_lines in Hg as (Hne & _ & Ho). now split.
  - apply andb_true_iff in Hg as [Hg Hgs]. apply andb_true_iff in Hb as [Hb Hbs].
    apply paragraph_group_lines in Hg as (Hne & _ & Ho).
    unfold blank_line in Hb. apply andb_true_iff in Hb as [_ Hb].
    destruct (IH g' Hgs Hbs) as [_ IH2].
    simpl. split.
    + destruct g; [contradiction|discriminate].
    + rewrite forallb_app. simpl. now rewrite Ho, Hb, IH2.
Qed.

(** C5. Text lines that follow one another go into one paragraph with a
    break between them, a blank line closes the paragraph, and the paragraph
    still open at the end of the text is closed: groups of text lines with
    one blank line between neighbours render as one paragraph per group.
    The text [para one], [para two], a blank line, [para three] gives a
    paragraph with the first two lines around a break and another with the
    third. *)
Theorem paragraphs_accumulate_until_blank (now : nat -> Z) :
  (forall g more,
      forallb paragraph_group (g :: map snd more) = true ->
      forallb blank_line (map fst more) = true ->
      render_pieces now (join_lines (doc_lines g more)) =
        paragraph g ++ flat_map (fun bg => paragraph (snd bg)) more) /\
  (forall st raw,
      text_line raw = true ->
      process_line now st raw =
        {| output := output st ++ [if inParagraph st then PBreak else POpen; inline_of raw];
           inParagraph := true;
           stepCounter := stepCounter st |}) /\
  (forall st raw, blank raw = true -> process_line now st raw = close_paragraph st) /\
  render_pieces now (js "para one" ++ [LF] ++ js "para two" ++ [LF; LF] ++ js "para three")
  = [POpen; PText (js "para one"); PBreak; PText (js "para two"); PClose;
     POpen; PText (js "para three"); PClose] /\
  parseMarkdownToHTML now
    (js "para one" ++ [LF] ++ js "para two" ++ [LF; LF] ++ js "para three")
  = js "<p>para one<br>para two</p><p>para three</p>".
Proof.
  split; [|split; [|split; [|split]]].
  - intros g more Hg Hb. unfold render_pieces.
    destruct (doc_lines_one_line more g Hg Hb) as [Hne Ho].
    rewrite split_join_lines by assumption.
    now rewrite render_doc by (reflexivity || assumption).
  - intros st raw. apply process_text_line.
  - intros st raw. apply process_line_blank.
  - reflexivity.
  - reflexivity.
Qed.

Lemma paragraphs_accumulate_until_blank_witness :
  forallb paragraph_group [[js "see *this*"; js " and that "]; [js "then 3 < 4"]] = true /\
  forallb blank_line [[32%N; TAB]] = true /\
  render_pieces clock0
    (js "see *this*" ++ [LF] ++ js " and that " ++ [LF; 32%N; TAB; LF] ++ js "then 3 < 4")
  = [POpen; PText (js "see *this*"); PBreak; PText (js "and that"); PClose;
     POpen; PText (js "then 3 &lt; 4"); PClose].
Proof.
  split; [reflexivity|]. split; [reflexivity|].
  destruct (paragraphs_accumulate_until_blank clock0) as [H _].
  exact (H [js "see *this*"; js " and that "] [([32%N; TAB], [js "then 3 < 4"])]
           eq_refl eq_refl).
Defined.

(** ** Headings *)

Lemma process_heading (now : nat -> Z) (st : render_state) (raw : jsstring) :
  (startsWith (js "### ") (trim raw) = true ->
   process_line now st raw = heading H3 (substring 4 (trim raw)) st) /\
  (startsWith (js "### ") (trim raw) = false ->
   startsWith (js "## ") (trim raw) = true ->
   process_line now st raw = heading H2 (substring 3 (trim raw)) st) /\
  (startsWith (js "### ") (trim raw) = false ->
   startsWith (js "## ") (trim raw) = false ->
   startsWith (js "# ") (trim raw) = true ->
   process_line now st raw = heading H1 (substring 2 (trim raw)) st).
Proof.
  unfold process_line. repeat split.
  - now intros ->.
  - now intros -> ->.
  - now intros -> -> ->.
Qed.

(** C3. The heading text is not the inline rendering of the rest of the
    line but that rendering escaped once more: [# Fillet & **Chamfer**]
    gives a level-1 heading whose body shows the emphasis tags and the
    entity as text, where the inline rendering has live emphasis. *)
Theorem heading_body_is_escaped_twice (now : nat -> Z) :
  render_pieces now (js "# Fillet & **Chamfer**")
  = [PHeading H1 (js "Fillet &amp;amp; &lt;strong&gt;Chamfer&lt;/strong&gt;")] /\
  parseInlineMarkdown (js "Fillet & **Chamfer**")
  = js "Fillet &amp; <strong>Chamfer</strong>" /\
  parseMarkdownToHTML now (js "# Fillet & **Chamfer**")
  = js "<h1>Fillet &amp;amp; &lt;strong&gt;Chamfer&lt;/strong&gt;</h1>" /\
  render_pieces now (js "# Title") = [PHeading H1 (js "Title")] /\
  render_pieces now (js "## heading") = [PHeading H2 (js "heading")].
Proof. repeat split; reflexivity. Qed.

(** ** Inline emphasis *)

(** A star with no word character before it cannot open an italic run. *)
Lemma italic_star_needs_word_before (prev : option cu) (s : jsstring) :
  word_at prev = false -> match_here re_italic_star [] prev (STAR :: s) = None.
Proof. intro H. unfold re_italic_star. cbn [match_here hd_error]. now rewrite H. Qed.

(** C2. [**bold** and *italic*] renders as one paragraph with [bold] in a
    bold span and [*italic*] left as it is, stars included: the star comes
    after a space, where [\b] does not hold.  With underscores the italic
    span is made. *)
Theorem star_italic_after_space_is_not_rendered (now : nat -> Z) :
  render_pieces now (js "**bold** and *italic*")
  = [POpen; PText (js "<strong>bold</strong> and *italic*"); PClose] /\
  parseMarkdownToHTML now (js "**bold** and *italic*")
  = js "<p><strong>bold</strong> and *italic*</p>" /\
  parseInlineMarkdown (js "*italic*") = js "*italic*" /\
  parseInlineMarkdown (js "**bold** and _italic_")
  = js "<strong>bold</strong> and <em>italic</em>" /\
  parseInlineMarkdown (js "a*b*c") = js "a<em>b</em>c".
Proof. repeat split; reflexivity. Qed.

(** ** Identifiers across calls *)



















(** ** Inert markup *)

Lemma inert_app (tags : list jsstring) (a b : jsstring) :
  inert tags a -> inert tags b -> inert tags (a ++ b).
Proof.
  intros Ha Hb. induction Ha as [|c s Hc _ IH|e s He _ IH|t s Ht _ IH].
  - exact Hb.
  - simpl. now apply inert_cu.
  - rewrite <- app_assoc. now apply inert_entity.
  - rewrite <- app_assoc. now apply inert_tag.
Qed.

Lemma inert_weaken (tags tags' : list jsstring) (s : jsstring) :
  incl tags tags' -> inert tags s -> inert tags' s.
Proof.
  intros Hi H. induction H as [|c s Hc _ IH|e s He _ IH|t s Ht _ IH].
  - constructor.
  - now apply inert_cu.
  - now apply inert_entity.
  - apply inert_tag; [now apply Hi|exact IH].
Qed.

Lemma inert_one_tag (tags : list jsstring) (t : jsstring) :
  In t tags -> inert tags t.
Proof.
  intro H. rewrite <- (app_nil_r t). apply inert_tag; [exact H|constructor].
Qed.

Lemma escape_cu_inert (c : cu) (s : jsstring) :
  inert [] s -> inert [] (escape_cu c ++ s).
Proof.
  intro H. unfold escape_cu.
  destruct (cu_eqb c AMP) eqn:E1; [apply inert_entity; [simpl; tauto|exact H]|].
  destruct (cu_eqb c NBSP) eqn:E2; [apply inert_entity; [simpl; tauto|exact H]|].
  destruct (cu_eqb c LT) eqn:E3; [apply inert_entity; [simpl; tauto|exact H]|].
  destruct (cu_eqb c GT) eqn:E4; [apply inert_entity; [simpl; tauto|exact H]|].
  apply inert_cu; [|exact H]. unfold is_markup. now rewrite E1, E3, E4.
Qed.

(** Escaped text has no live markup at all. *)
Lemma escapeHTML_inert (text : jsstring) : inert [] (escapeHTML text).
Proof.
  unfold escapeHTML. induction text as [|c s IH]; simpl.
  - constructor.
  - now apply escape_cu_inert.
Qed.

(** The first token of an inert text. *)
Lemma inert_head (tags : list jsstring) (s : jsstring) :
  inert tags s ->
  s = [] \/
  (exists c s', s = c :: s' /\ is_markup c = false /\ inert tags s') \/
  (exists c tok s', s = (c :: tok) ++ s' /\
                    (In (c :: tok) entities \/ In (c :: tok) tags) /\ inert tags s').
Proof.
  induction 1 as [|c s Hc Hs _|e s He Hs IH|t s Ht Hs IH].
  - now left.
  - right. left. now exists c, s.
  - destruct e as [|c tok]; [exact IH|].
    right. right. exists c, tok, s. tauto.
  - destruct t as [|c tok]; [exact IH|].
    right. right. exists c, tok, s. tauto.
Qed.

Lemma prefix_or_inside (tok s a : jsstring) (d : cu) (b : jsstring) :
  tok ++ s = a ++ d :: b ->
  (exists a', a = tok ++ a' /\ s = a' ++ d :: b) \/ In d tok.
Proof.
  revert a. induction tok as [|t tok IH]; intros a H.
  - left. now exists a.
  - destruct a as [|x a]; simpl in H; injection H as -> H.
    + right. now left.
    + destruct (IH a H) as [(a' & -> & ->) | Hin].
      * left. now exists a'.
      * right. now right.
Qed.

Lemma clean_token (toks : list jsstring) (tok : jsstring) (d : cu) :
  clean toks = true -> In tok toks -> In d tok -> is_delim d = false.
Proof.
  unfold clean. intros Hc Ht Hd. rewrite forallb_forall in Hc.
  specialize (Hc tok Ht). rewrite forallb_forall in Hc.
  apply Hc in Hd. now apply negb_true_iff in Hd.
Qed.

Lemma entities_clean : clean entities = true.
Proof. reflexivity. Qed.

Lemma emphasis_tags_clean : clean emphasis_tags = true.
Proof. reflexivity. Qed.

(** Cutting an inert text at a delimiter leaves two inert texts. *)
Lemma inert_split (tags : list jsstring) (s : jsstring) :
  clean tags = true ->
  inert tags s ->
  forall a d b, s = a ++ d :: b -> is_delim d = true ->
                inert tags a /\ inert tags b.
Proof.
  intros Hclean H.
  induction H as [|c s Hc Hs IH|e s He Hs IH|t s Ht Hs IH]; intros a d b E Hd.
  - destruct a; discriminate E.
  - destruct a as [|x a]; simpl in E; injection E as -> ->.
    + split; [constructor|exact Hs].
    + destruct (IH a d b eq_refl Hd) as [Ha Hb].
      split; [now apply inert_cu|exact Hb].
  - destruct (prefix_or_inside e s a d b E) as [(a' & -> & E') | Hin].
    + destruct (IH a' d b E' Hd) as [Ha Hb].
      split; [now apply inert_entity|exact Hb].
    + rewrite (clean_token entities e d entities_clean He Hin) in Hd. discriminate.
  - destruct (prefix_or_inside t s a d b E) as [(a' & -> & E') | Hin].
    + destruct (IH a' d b E' Hd) as [Ha Hb].
      split; [now apply inert_tag|exact Hb].
    + rewrite (clean_token tags t d Hclean Ht Hin) in Hd. discriminate.
Qed.

Lemma inert_drop_delims (tags : list jsstring) (ds s : jsstring) :
  clean tags = true ->
  forallb is_delim ds = true -> inert tags (ds ++ s) -> inert tags s.
Proof.
  intro Hclean. induction ds as [|d ds IH]; simpl; intros Hd H; [exact H|].
  apply andb_true_iff in Hd as [Hd Hds].
  apply IH; [exact Hds|].
  exact (proj2 (inert_split tags _ Hclean H [] d (ds ++ s) eq_refl Hd)).
Qed.

(** What a match of an inline pattern captured, and what follows the
    match, are inert when the text is. *)
Lemma inert_around_match (tags : list jsstring) (d1 cap d2 rest : jsstring) :
  clean tags = true ->
  d2 <> [] ->
  forallb is_delim d1 = true -> forallb is_delim d2 = true ->
  inert tags (d1 ++ cap ++ d2 ++ rest) ->
  inert tags cap /\ inert tags rest.
Proof.
  intros Hclean Hne H1 H2 H.
  apply inert_drop_delims in H; [|exact Hclean|exact H1].
  destruct d2 as [|d d2]; [contradiction|].
  simpl in H2. apply andb_true_iff in H2 as [Hd Hd2].
  destruct (inert_split tags _ Hclean H cap d (d2 ++ rest) eq_refl Hd) as [Hc Hr].
  split; [exact Hc|]. now apply inert_drop_delims in Hr.
Qed.

(** ** Matches of the inline patterns *)

(** A run that succeeds took some non-empty stretch of its class and then
    its continuation succeeded. *)
Lemma plus_run_inv (R : Type) (g : bool) (p : cu -> bool)
      (k : jsstring -> option cu -> jsstring -> option R) (s : jsstring) (r : R) :
  forall acc,
    plus_run g p k acc s = Some r ->
    exists run rest,
      s = run ++ rest /\ run <> [] /\ forallb p run = true /\
      k (acc ++ run) (Some (last run 0%N)) rest = Some r.
Proof.
  induction s as [|c s IH]; intros acc H; simpl in H; [discriminate|].
  destruct (p c) eqn:Hc; [|discriminate].
  assert (Hhere : k (acc ++ [c]) (Some c) s = Some r ->
                  exists run rest,
                    c :: s = run ++ rest /\ run <> [] /\ forallb p run = true /\
                    k (acc ++ run) (Some (last run 0%N)) rest = Some r).
  { intro Hk. exists [c], s. simpl. rewrite Hc. repeat split; [discriminate|exact Hk]. }
  assert (Hmore : plus_run g p k (acc ++ [c]) s = Some r ->
                  exists run rest,
                    c :: s = run ++ rest /\ run <> [] /\ forallb p run = true /\
                    k (acc ++ run) (Some (last run 0%N)) rest = Some r).
  { intro Hp. destruct (IH _ Hp) as (run & rest & -> & Hne & Hall & Hk).
    exists (c :: run), rest. simpl forallb. rewrite Hc, Hall.
    repeat split; [discriminate|].
    rewrite <- app_assoc in Hk. simpl in Hk.
    destruct run as [|x run]; [contradiction|exact Hk]. }
  destruct g.
  - destruct (plus_run true p k (acc ++ [c]) s) eqn:E.
    + injection H as ->. now apply Hmore.
    + now apply Hhere.
  - destruct (k (acc ++ [c]) (Some c) s) eqn:E.
    + injection H as ->. now apply Hhere.
    + now apply Hmore.
Qed.

Lemma star_is_delim (c : cu) : is_star c = true -> is_delim c = true.
Proof. unfold is_delim. now intros ->. Qed.

Lemma underscore_is_delim (c : cu) : is_underscore c = true -> is_delim c = true.
Proof. unfold is_delim. intros ->. apply orb_true_r. Qed.

Lemma not_delim (c : cu) :
  is_delim c = false -> is_star c = false /\ is_underscore c = false.
Proof. unfold is_delim. apply orb_false_iff. Qed.

Lemma re_bold_star_delim : delim_regex re_bold_star.
Proof.
  unfold delim_regex, re_bold_star. repeat split.
  - intros prev c s Hc. apply not_delim in Hc as [Hc _].
    cbn [match_here]. now rewrite Hc.
  - intros prev s caps rest H. cbn [match_here] in H.
    destruct s as [|c1 s]; [discriminate|].
    destruct (is_star c1) eqn:E1; [|discriminate].
    destruct s as [|c2 s]; [discriminate|].
    destruct (is_star c2) eqn:E2; [|discriminate].
    apply plus_run_inv in H as (run & rest' & -> & Hne & Hall & Hk).
    cbn [match_here app] in Hk.
    destruct rest' as [|c3 rest']; [discriminate|].
    destruct (is_star c3) eqn:E3; [|discriminate].
    destruct rest' as [|c4 rest']; [discriminate|].
    destruct (is_star c4) eqn:E4; [|discriminate].
    injection Hk as <- <-.
    exists [c1; c2], run, [c3; c4]. simpl.
    rewrite (star_is_delim _ E1), (star_is_delim _ E2),
      (star_is_delim _ E3), (star_is_delim _ E4).
    repeat split; reflexivity || discriminate.
Qed.

Lemma re_bold_underscore_delim : delim_regex re_bold_underscore.
Proof.
  unfold delim_regex, re_bold_underscore. repeat split.
  - intros prev c s Hc. apply not_delim in Hc as [_ Hc].
    cbn [match_here]. now rewrite Hc.
  - intros prev s caps rest H. cbn [match_here] in H.
    destruct s as [|c1 s]; [discriminate|].
    destruct (is_underscore c1) eqn:E1; [|discriminate].
    destruct s as [|c2 s]; [discriminate|].
    destruct (is_underscore c2) eqn:E2; [|discriminate].
    apply plus_run_inv in H as (run & rest' & -> & Hne & Hall & Hk).
    cbn [match_here app] in Hk.
    destruct rest' as [|c3 rest']; [discriminate|].
    destruct (is_underscore c3) eqn:E3; [|discriminate].
    destruct rest' as [|c4 rest']; [discriminate|].
    destruct (is_underscore c4) eqn:E4; [|discriminate].
    injection Hk as <- <-.
    exists [c1; c2], run, [c3; c4]. simpl.
    rewrite (underscore_is_delim _ E1), (underscore_is_delim _ E2),
      (underscore_is_delim _ E3), (underscore_is_delim _ E4).
    repeat split; reflexivity || discriminate.
Qed.

Lemma re_italic_star_delim : delim_regex re_italic_star.
Proof.
  unfold delim_regex, re_italic_star. repeat split.
  - intro prev. cbn [match_here]. now destruct (xorb _ _).
  - intros prev c s Hc. apply not_delim in Hc as [Hc _].
    cbn [match_here]. rewrite Hc. now destruct (xorb _ _).
  - intros prev s caps rest H. cbn [match_here] in H.
    destruct (xorb (word_at prev) (word_at (hd_error s))); [|discriminate].
    destruct s as [|c1 s]; [discriminate|].
    destruct (is_star c1) eqn:E1; [|discriminate].
    apply plus_run_inv in H as (run & rest' & -> & Hne & Hall & Hk).
    cbn [match_here app] in Hk.
    destruct rest' as [|c3 rest']; [discriminate|].
    destruct (is_star c3) eqn:E3; [|discriminate].
    destruct (xorb _ _); [|discriminate].
    injection Hk as <- <-.
    exists [c1], run, [c3]. simpl.
    rewrite (star_is_delim _ E1), (star_is_delim _ E3).
    repeat split; reflexivity || discriminate.
Qed.

Lemma re_italic_underscore_delim : delim_regex re_italic_underscore.
Proof.
  unfold delim_regex, re_italic_underscore. repeat split.
  - intro prev. cbn [match_here]. now destruct (xorb _ _).
  - intros prev c s Hc. apply not_delim in Hc as [_ Hc].
    cbn [match_here]. rewrite Hc. now destruct (xorb _ _).
  - intros prev s caps rest H. cbn [match_here] in H.
    destruct (xorb (word_at prev) (word_at (hd_error s))); [|discriminate].
    destruct s as [|c1 s]; [discriminate|].
    destruct (is_underscore c1) eqn:E1; [|discriminate].
    apply plus_run_inv in H as (run & rest' & -> & Hne & Hall & Hk).
    cbn [match_here app] in Hk.
    destruct rest' as [|c3 rest']; [discriminate|].
    destruct (is_underscore c3) eqn:E3; [|discriminate].
    destruct (xorb _ _); [|discriminate].
    injection Hk as <- <-.
    exists [c1], run, [c3]. simpl.
    rewrite (underscore_is_delim _ E1), (underscore_is_delim _ E3).
    repeat split; reflexivity || discriminate.
Qed.

(** ** Replacement keeps markup inert *)

Lemma replace_scan_nil (r : regex) (tpl : list tpl_part) (prev : option cu) :
  replace_scan r tpl 0 prev [] =
    match match_here r [] prev [] with
    | Some (caps, _) => expand tpl caps ++ []
    | None => []
    end.
Proof. reflexivity. Qed.

Lemma replace_scan_cons (r : regex) (tpl : list tpl_part) (prev : option cu)
      (c : cu) (s : jsstring) :
  replace_scan r tpl 0 prev (c :: s) =
    match match_here r [] prev (c :: s) with
    | Some (caps, rest) =>
        expand tpl caps ++
        match length (c :: s) - length rest with
        | O => c :: replace_scan r tpl 0 (Some c) s
        | S n => replace_scan r tpl n (Some c) s
        end
    | None => c :: replace_scan r tpl 0 (Some c) s
    end.
Proof. reflexivity. Qed.

(** Passing over the rest of a match. *)
Lemma replace_scan_skip (r : regex) (tpl : list tpl_part) (cs rest : jsstring) :
  forall prev, exists prev',
    replace_scan r tpl (length cs) prev (cs ++ rest) = replace_scan r tpl 0 prev' rest.
Proof.
  induction cs as [|c cs IH]; intro prev.
  - now exists prev.
  - destruct (IH (Some c)) as [prev' E]. exists prev'. exact E.
Qed.

(** A token without delimiters is copied: no match starts inside it. *)
Lemma replace_scan_token (r : regex) (tpl : list tpl_part) (tok rest : jsstring) :
  delim_regex r ->
  forallb (fun c => negb (is_delim c)) tok = true ->
  forall prev, exists prev',
    replace_scan r tpl 0 prev (tok ++ rest) = tok ++ replace_scan r tpl 0 prev' rest.
Proof.
  intros (_ & Hstart & _). induction tok as [|c tok IH]; intros Hc prev.
  - now exists prev.
  - simpl in Hc. apply andb_true_iff in Hc as [Hc Htok].
    apply negb_true_iff in Hc.
    destruct (IH Htok (Some c)) as [prev' E]. exists prev'.
    simpl app. rewrite replace_scan_cons, Hstart by exact Hc. now rewrite E.
Qed.

Lemma clean_In (toks : list jsstring) (tok : jsstring) :
  clean toks = true -> In tok toks ->
  forallb (fun c => negb (is_delim c)) tok = true.
Proof.
  unfold clean. intros H Hin. rewrite forallb_forall in H. now apply H.
Qed.

Lemma is_markup_delim (c : cu) : is_delim c = true -> is_markup c = false.
Proof.
  unfold is_delim, is_star, is_underscore, cu_eqb. intro H.
  apply orb_true_iff in H as [H | H]; apply N.eqb_eq in H; subst; reflexivity.
Qed.

(** Replacing the matches of an inline pattern by the captured run between
    two tags of [tags] keeps an inert text inert. *)
Lemma replace_scan_inert (tags : list jsstring) (r : regex) (o c : jsstring) :
  delim_regex r -> clean tags = true -> In o tags -> In c tags ->
  forall n s prev,
    length s <= n ->
    inert tags s ->
    inert tags (replace_scan r [TLit o; TGroup 1; TLit c] 0 prev s).
Proof.
  intros Hr Hclean Ho Hc.
  pose proof Hr as (Hnil & Hstart & Hshape).
  induction n as [|n IH]; intros s prev Hlen Hs.
  - destruct s; [|simpl in Hlen; lia].
    rewrite replace_scan_nil, Hnil. constructor.
  - destruct (inert_head tags s Hs)
      as [-> | [(x & s' & -> & Hx & Hs') | (x & tok & s' & -> & Htok & Hs')]].
    + rewrite replace_scan_nil, Hnil. constructor.
    + rewrite replace_scan_cons.
      destruct (match_here r [] prev (x :: s')) as [[caps rest]|] eqn:E.
      * destruct (Hshape _ _ _ _ E) as (d1 & cap & d2 & Es & -> & Hd1 & Hd2 & Hb1 & Hb2).
        rewrite Es in Hs.
        destruct (inert_around_match tags d1 cap d2 rest Hclean Hd2 Hb1 Hb2 Hs)
          as [Hcap Hrest].
        destruct d1 as [|y d1]; [contradiction|].
        simpl in Es. injection Es as <- Es.
        assert (El : length (x :: s') - length rest = S (length (d1 ++ cap ++ d2))).
        { rewrite Es. cbn [length]. rewrite !length_app. lia. }
        rewrite El.
        replace s' with ((d1 ++ cap ++ d2) ++ rest)
          by (rewrite Es; now rewrite <- !app_assoc).
        destruct (replace_scan_skip r [TLit o; TGroup 1; TLit c]
                    (d1 ++ cap ++ d2) rest (Some x)) as [prev' ->].
        change (expand [TLit o; TGroup 1; TLit c] [cap]) with (o ++ cap ++ c ++ []).
        rewrite app_nil_r, <- !app_assoc.
        apply inert_tag; [exact Ho|].
        apply inert_app; [exact Hcap|].
        apply inert_tag; [exact Hc|].
        apply IH; [|exact Hrest].
        simpl in Hlen. rewrite Es, !length_app in Hlen. lia.
      * apply inert_cu; [exact Hx|]. apply IH; [simpl in Hlen; lia|exact Hs'].
    + assert (Hcl : forallb (fun c => negb (is_delim c)) (x :: tok) = true).
      { destruct Htok as [H | H].
        - exact (clean_In entities _ entities_clean H).
        - exact (clean_In tags _ Hclean H). }
      destruct (replace_scan_token r [TLit o; TGroup 1; TLit c] (x :: tok) s' Hr Hcl prev)
        as [prev' ->].
      assert (Hrec : inert tags (replace_scan r [TLit o; TGroup 1; TLit c] 0 prev' s')).
      { apply IH; [|exact Hs']. rewrite length_app in Hlen. simpl in Hlen. lia. }
      destruct Htok as [H | H]; [now apply inert_entity|now apply inert_tag].
Qed.

Lemma replace_all_inert (r : regex) (o c s : jsstring) :
  delim_regex r -> In o emphasis_tags -> In c emphasis_tags ->
  inert emphasis_tags s ->
  inert emphasis_tags (replace_all r [TLit o; TGroup 1; TLit c] s).
Proof.
  intros Hr Ho Hc Hs. unfold replace_all.
  now apply (replace_scan_inert emphasis_tags r o c Hr emphasis_tags_clean Ho Hc
               (length s)).
Qed.

(** Inline rendering leaves no live markup but the four emphasis tags. *)
Lemma parseInlineMarkdown_inert (text : jsstring) :
  inert emphasis_tags (parseInlineMarkdown text).
Proof.
  unfold parseInlineMarkdown, tpl_strong, tpl_em. cbv zeta.
  apply replace_all_inert;
    [exact re_italic_underscore_delim|simpl; tauto|simpl; tauto|].
  apply replace_all_inert;
    [exact re_italic_star_delim|simpl; tauto|simpl; tauto|].
  apply replace_all_inert;
    [exact re_bold_underscore_delim|simpl; tauto|simpl; tauto|].
  apply replace_all_inert;
    [exact re_bold_star_delim|simpl; tauto|simpl; tauto|].
  apply (inert_weaken []); [intros x []|apply escapeHTML_inert].
Qed.

(** ** The whole rendering is inert *)

Lemma nilzero_digits (d : Decimal.uint) :
  forallb is_digit (js (NilZero.string_of_uint d)) = true.
Proof.
  unfold NilZero.string_of_uint.
  destruct d; try reflexivity; apply (uint_digits (_ d)).
Qed.

Lemma digits_id_chars (s : jsstring) :
  forallb is_digit s = true -> forallb id_char s = true.
Proof.
  rewrite !forallb_forall. intros H c Hc. unfold id_char.
  rewrite (H c Hc). now rewrite orb_true_r.
Qed.

Lemma num_to_js_id_chars (z : Z) : forallb id_char (num_to_js z) = true.
Proof.
  unfold num_to_js. destruct (Z.to_int z) as [d|d]; cbn [NilZero.string_of_int].
  - apply digits_id_chars, nilzero_digits.
  - change (js (String "-" ?s)) with (DASH :: js s). cbn [forallb].
    rewrite (digits_id_chars _ (nilzero_digits d)). reflexivity.
Qed.

Lemma step_id_chars (t : Z) (k : nat) : forallb id_char (step_id t k) = true.
Proof.
  unfold step_id. rewrite !forallb_app, !num_to_js_id_chars. reflexivity.
Qed.

Lemma id_char_plain (c : cu) : id_char c = true -> is_markup c = false.
Proof.
  unfold id_char, is_markup, is_digit, in_range, cu_eqb, LT, GT, AMP, DASH.
  intro H.
  destruct (N.eqb_spec c 60) as [->|]; [discriminate H|].
  destruct (N.eqb_spec c 62) as [->|]; [discriminate H|].
  destruct (N.eqb_spec c 38) as [->|]; [discriminate H|].
  reflexivity.
Qed.

Lemma inert_id (tags : list jsstring) (id s : jsstring) :
  forallb id_char id = true -> inert tags s -> inert tags (id ++ s).
Proof.
  induction id as [|c id IH]; simpl; intros H Hs; [exact Hs|].
  apply andb_true_iff in H as [Hc Hid].
  apply inert_cu; [now apply id_char_plain|now apply IH].
Qed.

Lemma emphasis_emitted : incl emphasis_tags emitted_tags.
Proof. unfold emitted_tags. apply incl_appl, incl_refl. Qed.

Lemma block_emitted (t : jsstring) : In t block_tags -> In t emitted_tags.
Proof. unfold emitted_tags. intro H. apply in_or_app. now right. Qed.

Lemma heading_html_inert (l : level) (body s : jsstring) :
  inert [] body -> inert emitted_tags s ->
  inert emitted_tags (piece_html (PHeading l body) ++ s).
Proof.
  intros Hb Hs.
  assert (Hb' : inert emitted_tags body) by (apply (inert_weaken []); [intros x []|exact Hb]).
  destruct l.
  - change (piece_html (PHeading H1 body)) with (js "<h1>" ++ body ++ js "</h1>").
    rewrite <- !app_assoc.
    apply inert_tag; [apply block_emitted; simpl; tauto|].
    apply inert_app; [exact Hb'|].
    apply inert_tag; [apply block_emitted; simpl; tauto|exact Hs].
  - change (piece_html (PHeading H2 body)) with (js "<h2>" ++ body ++ js "</h2>").
    rewrite <- !app_assoc.
    apply inert_tag; [apply block_emitted; simpl; tauto|].
    apply inert_app; [exact Hb'|].
    apply inert_tag; [apply block_emitted; simpl; tauto|exact Hs].
  - change (piece_html (PHeading H3 body)) with (js "<h3>" ++ body ++ js "</h3>").
    rewrite <- !app_assoc.
    apply inert_tag; [apply block_emitted; simpl; tauto|].
    apply inert_app; [exact Hb'|].
    apply inert_tag; [apply block_emitted; simpl; tauto|exact Hs].
Qed.

Lemma piece_html_inert (p : piece) (s : jsstring) :
  piece_inert p -> inert emitted_tags s -> inert emitted_tags (piece_html p ++ s).
Proof.
  intros Hp Hs. destruct p as [| | |l body|id body|body].
  - apply inert_tag; [apply block_emitted; simpl; tauto|exact Hs].
  - apply inert_tag; [apply block_emitted; simpl; tauto|exact Hs].
  - apply inert_tag; [apply block_emitted; simpl; tauto|exact Hs].
  - now apply heading_html_inert.
  - destruct Hp as [Hid Hb]. cbn [piece_html]. rewrite <- !app_assoc.
    apply inert_tag; [apply block_emitted; unfold block_tags; cbn [In]; tauto|].
    apply inert_id; [exact Hid|].
    apply inert_tag; [apply block_emitted; unfold block_tags; cbn [In]; tauto|].
    apply inert_app; [exact (inert_weaken _ _ _ emphasis_emitted Hb)|].
    apply inert_tag; [apply block_emitted; unfold block_tags; cbn [In]; tauto|exact Hs].
  - cbn [piece_html]. apply inert_app; [|exact Hs].
    exact (inert_weaken _ _ _ emphasis_emitted Hp).
Qed.

Lemma pieces_html_inert (ps : list piece) :
  Forall piece_inert ps -> inert emitted_tags (flat_map piece_html ps).
Proof.
  induction 1 as [|p ps Hp _ IH]; simpl; [constructor|].
  now apply piece_html_inert.
Qed.

Lemma push_ok (p : piece) (st : render_state) :
  piece_inert p -> piece_inline p -> pieces_ok st -> pieces_ok (push p st).
Proof.
  unfold pieces_ok, push. simpl. intros H1 H2 [Ha Hb].
  split; apply Forall_app; split; try assumption; now repeat constructor.
Qed.

Lemma close_paragraph_ok (st : render_state) :
  pieces_ok st -> pieces_ok (close_paragraph st).
Proof.
  unfold pieces_ok. rewrite close_paragraph_output. intros [Ha Hb].
  split; apply Forall_app; split; try assumption;
    destruct (inParagraph st); now repeat constructor.
Qed.

Lemma process_line_ok (now : nat -> Z) (st : render_state) (raw : jsstring) :
  pieces_ok st -> pieces_ok (process_line now st raw).
Proof.
  intro H. unfold process_line, heading.
  destruct (startsWith (js "### ") (trim raw)).
  { apply push_ok; [apply escapeHTML_inert|now eexists|now apply close_paragraph_ok]. }
  destruct (startsWith (js "## ") (trim raw)).
  { apply push_ok; [apply escapeHTML_inert|now eexists|now apply close_paragraph_ok]. }
  destruct (startsWith (js "# ") (trim raw)).
  { apply push_ok; [apply escapeHTML_inert|now eexists|now apply close_paragraph_ok]. }
  destruct (numberedMatch (trim raw)) as [caps|].
  - apply close_paragraph_ok in H. revert H.
    generalize (close_paragraph st). intros st' [Ha Hb].
    unfold pieces_ok. cbn [output].
    split; apply Forall_app; split; try assumption; repeat constructor.
    + apply step_id_chars.
    + apply parseInlineMarkdown_inert.
    + now eexists.
  - destruct (trim raw) as [|c t].
    + now apply close_paragraph_ok.
    + apply push_ok; [apply parseInlineMarkdown_inert|now eexists|].
      destruct (inParagraph st).
      * now apply push_ok.
      * destruct H as [Ha Hb]. unfold pieces_ok. cbn [output].
        split; apply Forall_app; split; try assumption; now repeat constructor.
Qed.

Lemma render_lines_ok (now : nat -> Z) (lines : list jsstring) :
  forall st, pieces_ok st -> pieces_ok (render_lines now st lines).
Proof.
  induction lines as [|l ls IH]; intros st H; simpl; [exact H|].
  apply IH. now apply process_line_ok.
Qed.

Lemma render_pieces_ok (now : nat -> Z) (text : jsstring) :
  Forall piece_inert (render_pieces now text) /\
  Forall piece_inline (render_pieces now text).
Proof.
  unfold render_pieces.
  apply close_paragraph_ok, render_lines_ok. split; constructor.
Qed.

(** C1. For every text and every kind of block, the line's text is escaped
    code unit by code unit before the emphasis patterns are applied to it:
    the body of every heading, step and paragraph line comes out of
    [parseInlineMarkdown], which substitutes on the escaped text and adds
    nothing but the four emphasis tags.  In the rendered markup every [<],
    [>] and [&] belongs to a tag the renderer writes itself or to an
    entity, so markup in the input never comes out live. *)
Theorem rendered_markup_is_inert (now : nat -> Z) (text : jsstring) :
  (forall s,
      parseInlineMarkdown s =
        replace_all re_italic_underscore tpl_em
          (replace_all re_italic_star tpl_em
             (replace_all re_bold_underscore tpl_strong
                (replace_all re_bold_star tpl_strong (escapeHTML s))))) /\
  (forall a b, escapeHTML (a ++ b) = escapeHTML a ++ escapeHTML b) /\
  (forall s, inert [] (escapeHTML s)) /\
  (forall s, inert emphasis_tags (parseInlineMarkdown s)) /\
  Forall piece_inline (render_pieces now text) /\
  Forall piece_inert (render_pieces now text) /\
  inert emitted_tags (parseMarkdownToHTML now text).
Proof.
  destruct (render_pieces_ok now text) as [Hi Hl].
  repeat split.
  - intros a b. apply flat_map_app.
  - apply escapeHTML_inert.
  - apply parseInlineMarkdown_inert.
  - exact Hl.
  - exact Hi.
  - unfold parseMarkdownToHTML. now apply pieces_html_inert.
Qed.

(** Raw markup is not inert, and the renderer escapes it. *)
Lemma raw_script_not_inert : ~ inert emitted_tags (js "<script>").
Proof.
  intro H. apply inert_head in H.
  destruct H as [E | [(c & s' & E & Hc & _) | (c & tok & s' & E & Hin & _)]].
  - discriminate E.
  - injection E as <- _. discriminate Hc.
  - destruct Hin as [Hin | Hin]; simpl in Hin;
      repeat (destruct Hin as [Hin | Hin]; [rewrite <- Hin in E; discriminate E|]);
      contradiction.
Qed.

Lemma script_is_escaped (now : nat -> Z) :
  parseMarkdownToHTML now (js "<script>alert(1)</script> **x** & <b>")
  = js "<p>&lt;script&gt;alert(1)&lt;/script&gt; <strong>x</strong> &amp; &lt;b&gt;</p>".
Proof. reflexivity. Qed.

(** ** Chat controller *)

Section ControllerFacts.
Variable num : Type.
Variable JSON_parse : jsstring -> option (json num).
Variable JSON_stringify : json num -> jsstring.
Variable JSON_stringify_indent : json num -> jsstring.
Variable to_string : json num -> jsstring.
Variable num_truthy : num -> bool.
Variable nowTime : nat -> jsstring.
Variable dateNow : nat -> nat -> Z.

Let handle' := handle JSON_parse JSON_stringify_indent to_string num_truthy nowTime dateNow.
Let updateContext' := updateContext JSON_parse JSON_stringify_indent to_string num_truthy.
Let sendUserQuery' := sendUserQuery JSON_stringify nowTime dateNow.

(** C6. An empty or white-space-only input makes [sendUserQuery] return
    the palette as it got it: no message is appended and the bridge is not
    called.  Any other input appends one user message holding the trimmed
    text as plain text, empties the input box and makes one [userQuery]
    call on the bridge carrying that text. *)
Theorem sendUserQuery_rejects_blank_else_forwards (p : palette) :
  (blank (chatInput p) = true -> sendUserQuery' p = p) /\
  (blank (chatInput p) = false ->
     let text := trim (chatInput p) in
     let p' := sendUserQuery' p in
     text <> [] /\
     messages p' = messages p ++
       [{| entry_role := User;
           entry_body := TextContent text;
           entry_meta := meta_line User (nowTime (length (messages p))) |}] /\
     chatInput p' = [] /\
     bridge_calls p' = bridge_calls p ++
       [(js "userQuery", JSON_stringify (JObj [(js "text", JStr text)]))]).
Proof.
  unfold sendUserQuery', sendUserQuery. split.
  - intro H. apply trim_nil_iff in H. now rewrite H.
  - intro H. cbv zeta.
    destruct (trim (chatInput p)) as [|c t] eqn:E.
    + apply trim_nil_iff in E. congruence.
    + simpl. repeat split; discriminate || reflexivity.
Qed.

(** C7 (amended). When the payload is not parseable JSON, a
    [contextUpdate] puts the raw text in the context pane as it is, leaves
    the transcript alone and answers OK; an [assistantMessage] is not
    displayed: the handler catches the exception, sets the error status
    and answers OK. *)
Theorem handle_unparseable_payload (data : jsstring) (p : palette) :
  JSON_parse data = None ->
  (let r := handle' (js "contextUpdate") data p in
   context_text (fst r) = data /\
   messages (fst r) = messages p /\
   status_text (fst r) = status_text p /\
   snd r = js "OK") /\
  handle' (js "assistantMessage") data p =
    (setStatus (js "Error handling message from Fusion: assistantMessage") true p,
     js "OK").
Proof.
  intro H. unfold handle', handle, handle_try. simpl str_eqb.
  unfold updateContext. rewrite H. split; [|reflexivity].
  cbv zeta. simpl.
  destruct (screenshotPreview p); simpl; repeat split; reflexivity.
Qed.

(** C8. An action other than [assistantMessage], [contextUpdate] and
    [debugger] is answered with [Unexpected command type: ] followed by
    the action, whatever the data, and the palette is left as it was. *)
Theorem handle_unexpected_action (action data : jsstring) (p : palette) :
  action <> js "assistantMessage" ->
  action <> js "contextUpdate" ->
  action <> js "debugger" ->
  handle' action data p = (p, js "Unexpected command type: " ++ action).
Proof.
  intros H1 H2 H3. unfold handle', handle, handle_try.
  now rewrite !str_eqb_neq by assumption.
Qed.
End ControllerFacts.

Lemma sendUserQuery_rejects_blank_else_forwards_witness :
  let p := {| messages := []; status_text := []; status_error := false;
              context_text := []; screenshotPreview := None;
              chatInput := js " hi "; sendBtn_disabled := false;
              bridge_calls := [] |} in
  blank (chatInput p) = false /\
  bridge_calls (sendUserQuery no_string no_time epoch p) =
    [(js "userQuery", no_string (JObj [(js "text", JStr (js "hi"))]))].
Proof.
  intro p. split; [reflexivity|].
  destruct (sendUserQuery_rejects_blank_else_forwards unit no_string no_time epoch p)
    as [_ H].
  destruct (H eq_refl) as (_ & _ & _ & Hb). exact Hb.
Defined.

Lemma handle_unparseable_payload_witness :
  reject_all (js "not json") = None /\
  context_text
    (fst (handle reject_all no_string no_string (fun _ => true) no_time epoch
            (js "contextUpdate") (js "not json") empty_palette)) = js "not json".
Proof.
  split; [reflexivity|].
  destruct (handle_unparseable_payload unit reject_all no_string no_string (fun _ => true)
              no_time epoch (js "not json") empty_palette eq_refl) as [[H _] _].
  exact H.
Defined.

(** C7, as stated, fails: an [assistantMessage] whose payload is not JSON
    is shown nowhere as text. *)
Lemma handle_assistantMessage_unparseable_dropped :
  ~ shows_text (js "not json")
      (fst (handle reject_all no_string no_string (fun _ => true) no_time epoch
              (js "assistantMessage") (js "not json") empty_palette)).
Proof.
  intros [H | [e [H _]]].
  - discriminate H.
  - exact H.
Qed.

Lemma handle_unexpected_action_witness :
  js "ping" <> js "assistantMessage" /\
  handle reject_all no_string no_string (fun _ => true) no_time epoch
    (js "ping") (js "{}") empty_palette
  = (empty_palette, js "Unexpected command type: ping").
Proof.
  split; [discriminate|].
  apply (handle_unexpected_action unit reject_all no_string no_string (fun _ => true)
           no_time epoch); discriminate.
Defined.

(** * Further properties of the script *)

(** ** Clock text *)

Lemma pad_check :
  forallb (fun n => Nat.eqb (length (Clock.pad n)) 2 && forallb is_digit (Clock.pad n))
          (seq 0 60) = true.
Proof. vm_compute. reflexivity. Qed.

Lemma pad_two_digits (n : nat) :
  n < 60 -> exists a b, Clock.pad n = [a; b] /\ is_digit a = true /\ is_digit b = true.
Proof.
  intro H. pose proof pad_check as C. rewrite forallb_forall in C.
  assert (Hin : In n (seq 0 60)) by (apply in_seq; lia).
  specialize (C n Hin). apply andb_true_iff in C as [Hl Hd].
  apply Nat.eqb_eq in Hl.
  destruct (Clock.pad n) as [|a [|b [|c t]]]; try discriminate Hl.
  exists a, b. simpl in Hd.
  apply andb_true_iff in Hd as [Ha Hb]. apply andb_true_iff in Hb as [Hb _].
  now repeat split.
Qed.

Lemma pad_inj_check :
  forallb (fun a => forallb (fun b => implb (str_eqb (Clock.pad a) (Clock.pad b))
                                            (Nat.eqb a b))
                            (seq 0 60))
          (seq 0 60) = true.
Proof. vm_compute. reflexivity. Qed.

Lemma pad_inj (a b : nat) : a < 60 -> b < 60 -> Clock.pad a = Clock.pad b -> a = b.
Proof.
  intros Ha Hb E. pose proof pad_inj_check as C. rewrite forallb_forall in C.
  assert (Hia : In a (seq 0 60)) by (apply in_seq; lia).
  assert (Hib : In b (seq 0 60)) by (apply in_seq; lia).
  specialize (C a Hia). rewrite forallb_forall in C. specialize (C b Hib).
  apply (proj2 (str_eqb_eq _ _)) in E. rewrite E in C. simpl in C.
  now apply Nat.eqb_eq.
Qed.

(** X1. For a time of day the clock text is eight code units, two digits,
    a colon, two digits, a colon, two digits, and different times give
    different texts. *)
Theorem nowTime_fixed_width_and_injective (d1 d2 : Clock.date) :
  Clock.valid d1 -> Clock.valid d2 ->
  (exists h1 h2 m1 m2 s1 s2,
      Clock.nowTime d1 = [h1; h2; 58%N; m1; m2; 58%N; s1; s2] /\
      forallb is_digit [h1; h2; m1; m2; s1; s2] = true) /\
  (Clock.nowTime d1 = Clock.nowTime d2 -> d1 = d2).
Proof.
  intros (Hh1 & Hm1 & Hs1) (Hh2 & Hm2 & Hs2).
  destruct (pad_two_digits (Clock.getHours d1)) as (h1 & h2 & Eh & Dh1 & Dh2); [lia|].
  destruct (pad_two_digits (Clock.getMinutes d1)) as (m1 & m2 & Em & Dm1 & Dm2); [lia|].
  destruct (pad_two_digits (Clock.getSeconds d1)) as (s1 & s2 & Es & Ds1 & Ds2); [lia|].
  split.
  - exists h1, h2, m1, m2, s1, s2. unfold Clock.nowTime. rewrite Eh, Em, Es.
    split; [reflexivity|]. simpl. now rewrite Dh1, Dh2, Dm1, Dm2, Ds1, Ds2.
  - destruct (pad_two_digits (Clock.getHours d2)) as (a1 & a2 & Fh & _); [lia|].
    destruct (pad_two_digits (Clock.getMinutes d2)) as (b1 & b2 & Fm & _); [lia|].
    destruct (pad_two_digits (Clock.getSeconds d2)) as (c1 & c2 & Fs & _); [lia|].
    unfold Clock.nowTime. intro E.
    assert (Ph : Clock.pad (Clock.getHours d1) = Clock.pad (Clock.getHours d2)).
    { rewrite Eh, Em, Es, Fh, Fm, Fs in E. rewrite Eh, Fh.
      simpl in E. now injection E as -> ->. }
    assert (Pm : Clock.pad (Clock.getMinutes d1) = Clock.pad (Clock.getMinutes d2)).
    { rewrite Eh, Em, Es, Fh, Fm, Fs in E. rewrite Em, Fm.
      simpl in E. injection E as _ _ E1 E2. now subst. }
    assert (Ps : Clock.pad (Clock.getSeconds d1) = Clock.pad (Clock.getSeconds d2)).
    { rewrite Eh, Em, Es, Fh, Fm, Fs in E. rewrite Es, Fs.
      simpl in E. injection E as _ _ _ _ E1 E2. now subst. }
    apply pad_inj in Ph, Pm, Ps; try lia.
    destruct d1, d2. simpl in *. now subst.
Qed.

Lemma nowTime_fixed_width_and_injective_witness :
  Clock.valid {| Clock.getHours := 9; Clock.getMinutes := 5; Clock.getSeconds := 30 |} /\
  exists h1 h2 m1 m2 s1 s2,
    Clock.nowTime {| Clock.getHours := 9; Clock.getMinutes := 5; Clock.getSeconds := 30 |}
    = [h1; h2; 58%N; m1; m2; 58%N; s1; s2] /\
    forallb is_digit [h1; h2; m1; m2; s1; s2] = true.
Proof.
  assert (V : Clock.valid {| Clock.getHours := 9; Clock.getMinutes := 5;
                             Clock.getSeconds := 30 |})
    by (unfold Clock.valid; simpl; lia).
  split; [exact V|].
  exact (proj1 (nowTime_fixed_width_and_injective _ _ V V)).
Defined.

(** ** escapeHTML *)

Lemma escape_cu_inj (c d : cu) (x y : jsstring) :
  escape_cu c ++ x = escape_cu d ++ y -> c = d /\ x = y.
Proof.
  unfold escape_cu, cu_eqb, AMP, NBSP, LT, GT.
  destruct (N.eqb_spec c 38) as [->|C1]; [|destruct (N.eqb_spec c 160) as [->|C2];
    [|destruct (N.eqb_spec c 60) as [->|C3]; [|destruct (N.eqb_spec c 62) as [->|C4]]]];
  (destruct (N.eqb_spec d 38) as [->|D1]; [|destruct (N.eqb_spec d 160) as [->|D2];
    [|destruct (N.eqb_spec d 60) as [->|D3]; [|destruct (N.eqb_spec d 62) as [->|D4]]]]);
  simpl; intro H; try discriminate H;
  try (injection H; intros; subst; try congruence; now split).
Qed.

Lemma is_special_escape (c : cu) : is_special c = false -> escape_cu c = [c].
Proof.
  unfold is_special, escape_cu. intro H.
  apply orb_false_iff in H as [H H4]. apply orb_false_iff in H as [H H3].
  apply orb_false_iff in H as [H1 H2]. now rewrite H1, H2, H3, H4.
Qed.

Lemma escape_cu_special_longer (c : cu) :
  is_special c = true -> 4 <= length (escape_cu c).
Proof.
  unfold is_special, escape_cu. intro H.
  destruct (cu_eqb c AMP); [simpl; lia|].
  destruct (cu_eqb c NBSP); [simpl; lia|].
  destruct (cu_eqb c LT); [simpl; lia|].
  destruct (cu_eqb c GT); [simpl; lia|discriminate H].
Qed.

Lemma escapeHTML_length (s : jsstring) : length s <= length (escapeHTML s).
Proof.
  unfold escapeHTML. induction s as [|c s IH]; simpl; [lia|].
  rewrite length_app. destruct (is_special c) eqn:E.
  - pose proof (escape_cu_special_longer c E). lia.
  - rewrite (is_special_escape c E). simpl. lia.
Qed.

(** X2. Escaping loses nothing: different texts escape to different texts;
    and a text is left as it is exactly when it holds none of [&], [<],
    [>] and the no-break space. *)
Theorem escapeHTML_injective_and_fixed_points :
  (forall a b, escapeHTML a = escapeHTML b -> a = b) /\
  (forall s, escapeHTML s = s <-> forallb (fun c => negb (is_special c)) s = true).
Proof.
  split.
  - unfold escapeHTML. induction a as [|c a IH]; intros [|d b] H; simpl in H.
    + reflexivity.
    + exfalso. unfold escape_cu in H.
      destruct (cu_eqb d AMP), (cu_eqb d NBSP), (cu_eqb d LT), (cu_eqb d GT);
        discriminate H.
    + exfalso. unfold escape_cu in H.
      destruct (cu_eqb c AMP), (cu_eqb c NBSP), (cu_eqb c LT), (cu_eqb c GT);
        discriminate H.
    + apply escape_cu_inj in H as [-> H]. f_equal. now apply IH.
  - intro s. split.
    + induction s as [|c s IH]; intro H; [reflexivity|].
      simpl. destruct (is_special c) eqn:E.
      * exfalso. apply (f_equal (@length cu)) in H.
        change (escapeHTML (c :: s)) with (escape_cu c ++ escapeHTML s) in H.
        rewrite length_app in H. simpl in H.
        pose proof (escape_cu_special_longer c E). pose proof (escapeHTML_length s). lia.
      * simpl. apply IH.
        change (escapeHTML (c :: s)) with (escape_cu c ++ escapeHTML s) in H.
        rewrite (is_special_escape c E) in H. now injection H.
    + induction s as [|c s IH]; intro H; [reflexivity|].
      simpl in H. apply andb_true_iff in H as [Hc Hs]. apply negb_true_iff in Hc.
      change (escapeHTML (c :: s)) with (escape_cu c ++ escapeHTML s).
      rewrite (is_special_escape c Hc), (IH Hs). reflexivity.
Qed.

Lemma escapeHTML_injective_and_fixed_points_witness :
  escapeHTML (js "a&b") = escapeHTML (js "a&b") /\
  (escapeHTML (js "3 x 4") = js "3 x 4").
Proof.
  split; [reflexivity|].
  apply (proj2 escapeHTML_injective_and_fixed_points). reflexivity.
Defined.

(** ** Inline emphasis, where it applies *)

Lemma prev_after_app (prev : option cu) (a b : jsstring) :
  prev_after prev (a ++ b) = prev_after (prev_after prev a) b.
Proof. unfold prev_after. apply fold_left_app. Qed.

(** Where no match can start, the text is copied. *)
Lemma replace_scan_copy (r : regex) (tpl : list tpl_part) (q : cu -> bool) :
  (forall prev c s, q c = false -> match_here r [] prev (c :: s) = None) ->
  forall tok rest prev,
    forallb (fun c => negb (q c)) tok = true ->
    replace_scan r tpl 0 prev (tok ++ rest)
    = tok ++ replace_scan r tpl 0 (prev_after prev tok) rest.
Proof.
  intros Hstart tok rest. induction tok as [|c tok IH]; intros prev H.
  - reflexivity.
  - simpl in H. apply andb_true_iff in H as [Hc Ht]. apply negb_true_iff in Hc.
    simpl app. rewrite replace_scan_cons, Hstart by exact Hc.
    now rewrite IH.
Qed.

Lemma replace_scan_untouched (r : regex) (tpl : list tpl_part) (q : cu -> bool) :
  (forall prev, match_here r [] prev [] = None) ->
  (forall prev c s, q c = false -> match_here r [] prev (c :: s) = None) ->
  forall s prev,
    forallb (fun c => negb (q c)) s = true -> replace_scan r tpl 0 prev s = s.
Proof.
  intros Hnil Hstart s prev H.
  rewrite <- (app_nil_r s) at 1.
  rewrite (replace_scan_copy r tpl q Hstart s [] prev H).
  now rewrite replace_scan_nil, Hnil, app_nil_r.
Qed.

Lemma replace_scan_skip_to (r : regex) (tpl : list tpl_part) (cs rest : jsstring) :
  forall prev,
    replace_scan r tpl (length cs) prev (cs ++ rest)
    = replace_scan r tpl 0 (prev_after prev cs) rest.
Proof.
  induction cs as [|c cs IH]; intro prev; [reflexivity|].
  simpl length. simpl app.
  change (replace_scan r tpl (S (length cs)) prev (c :: cs ++ rest))
    with (replace_scan r tpl (length cs) (Some c) (cs ++ rest)).
  apply IH.
Qed.

(** At a match the replacement is written and the scan goes on after it. *)
Lemma replace_scan_at_match (r : regex) (tpl : list tpl_part) (prev : option cu)
      (c : cu) (cs rest : jsstring) (caps : list jsstring) :
  match_here r [] prev (c :: cs ++ rest) = Some (caps, rest) ->
  replace_scan r tpl 0 prev (c :: cs ++ rest)
  = expand tpl caps ++ replace_scan r tpl 0 (prev_after (Some c) cs) rest.
Proof.
  intro H. rewrite replace_scan_cons, H.
  assert (E : length (c :: cs ++ rest) - length rest = S (length cs)).
  { cbn [length]. rewrite length_app. lia. }
  rewrite E. now rewrite replace_scan_skip_to.
Qed.

Lemma plus_run_lazy_through (R : Type) (p : cu -> bool)
      (k : jsstring -> option cu -> jsstring -> option R)
      (run rest : jsstring) (r : R) :
  (forall acc prev c s, In c run -> k acc prev (c :: s) = None) ->
  forall acc,
    run <> [] ->
    forallb p run = true ->
    k (acc ++ run) (Some (last run 0%N)) rest = Some r ->
    plus_run false p k acc (run ++ rest) = Some r.
Proof.
  induction run as [|c run IH]; intros Hfail acc Hne Hall Hk; [contradiction|].
  simpl in Hall. apply andb_true_iff in Hall as [Hc Hall].
  simpl app. simpl plus_run. rewrite Hc.
  destruct run as [|c' run'].
  - simpl app. simpl in Hk. now rewrite Hk.
  - simpl app. rewrite Hfail by (right; now left).
    apply IH.
    + intros acc' prev' x s Hx. apply Hfail. now right.
    + discriminate.
    + exact Hall.
    + rewrite <- app_assoc. exact Hk.
Qed.

Section Emphasis.
Variables isd notd : cu -> bool.
Variable d : cu.
Hypothesis notd_spec : forall c, notd c = true -> isd c = false.
Hypothesis isd_d : isd d = true.

Lemma bold_re_nil (prev : option cu) : match_here (bold_re isd notd) [] prev [] = None.
Proof. reflexivity. Qed.

Lemma bold_re_start (prev : option cu) (c : cu) (s : jsstring) :
  isd c = false -> match_here (bold_re isd notd) [] prev (c :: s) = None.
Proof. intro H. unfold bold_re. cbn [match_here]. now rewrite H. Qed.

Lemma italic_re_nil (prev : option cu) : match_here (italic_re isd notd) [] prev [] = None.
Proof. unfold italic_re. cbn [match_here]. now destruct (xorb _ _). Qed.

Lemma italic_re_start (prev : option cu) (c : cu) (s : jsstring) :
  isd c = false -> match_here (italic_re isd notd) [] prev (c :: s) = None.
Proof.
  intro H. unfold italic_re. cbn [match_here]. rewrite H. now destruct (xorb _ _).
Qed.

Lemma notd_not_d : notd d = false.
Proof.
  destruct (notd d) eqn:E; [|reflexivity].
  apply notd_spec in E. congruence.
Qed.

Lemma bold_re_match (prev : option cu) (B Q : jsstring) :
  B <> [] -> forallb notd B = true ->
  match_here (bold_re isd notd) [] prev (d :: d :: B ++ d :: d :: Q) = Some ([B], Q).
Proof.
  intros Hne HB. unfold bold_re. cbn [match_here]. rewrite isd_d.
  apply plus_run_greedy_max; [exact Hne|exact HB|exact notd_not_d|].
  cbn [match_here app]. now rewrite isd_d.
Qed.

(** A bold run between texts that hold no delimiter. *)
Lemma bold_pass (o c P B Q : jsstring) (prev : option cu) :
  forallb (fun x => negb (isd x)) P = true ->
  B <> [] -> forallb notd B = true ->
  forallb (fun x => negb (isd x)) Q = true ->
  replace_scan (bold_re isd notd) [TLit o; TGroup 1; TLit c] 0 prev
               (P ++ d :: d :: B ++ d :: d :: Q)
  = P ++ o ++ B ++ c ++ Q.
Proof.
  intros HP Hne HB HQ.
  rewrite (replace_scan_copy _ _ isd (fun p x s => bold_re_start p x s)) by exact HP.
  pose proof (bold_re_match (prev_after prev P) B Q Hne HB) as M.
  assert (E : d :: d :: B ++ d :: d :: Q = d :: (d :: B ++ [d; d]) ++ Q).
  { simpl. now rewrite <- app_assoc. }
  rewrite E in M |- *.
  rewrite (replace_scan_at_match _ _ _ _ _ _ _ M).
  rewrite (replace_scan_untouched _ _ isd bold_re_nil
             (fun p x s => bold_re_start p x s)) by exact HQ.
  change (expand [TLit o; TGroup 1; TLit c] [B]) with (o ++ B ++ c ++ []).
  now rewrite app_nil_r, <- !app_assoc.
Qed.

(** Single delimiters are not bold. *)
Lemma bold_pass_single (tpl : list tpl_part) (P B Q : jsstring) (prev : option cu) :
  forallb (fun x => negb (isd x)) P = true ->
  B <> [] -> forallb (fun x => negb (isd x)) B = true ->
  forallb (fun x => negb (isd x)) Q = true ->
  replace_scan (bold_re isd notd) tpl 0 prev (P ++ d :: B ++ d :: Q)
  = P ++ d :: B ++ d :: Q.
Proof.
  intros HP Hne HB HQ.
  rewrite (replace_scan_copy _ _ isd (fun p x s => bold_re_start p x s)) by exact HP.
  f_equal. destruct B as [|b B]; [contradiction|].
  pose proof HB as HB'. simpl in HB'. apply andb_true_iff in HB' as [Hb _].
  apply negb_true_iff in Hb.
  rewrite replace_scan_cons.
  assert (M1 : forall p, match_here (bold_re isd notd) [] p (d :: (b :: B) ++ d :: Q) = None).
  { intro p. unfold bold_re. cbn [match_here app]. now rewrite isd_d, Hb. }
  rewrite M1. f_equal.
  rewrite (replace_scan_copy _ _ isd (fun p x s => bold_re_start p x s)) by exact HB.
  f_equal. rewrite replace_scan_cons.
  assert (M2 : forall p, match_here (bold_re isd notd) [] p (d :: Q) = None).
  { intro p. unfold bold_re. cbn [match_here]. rewrite isd_d.
    destruct Q as [|x Q]; [reflexivity|].
    simpl in HQ. apply andb_true_iff in HQ as [Hx _]. apply negb_true_iff in Hx.
    now rewrite Hx. }
  rewrite M2. f_equal.
  apply (replace_scan_untouched _ _ isd bold_re_nil (fun p x s => bold_re_start p x s)).
  exact HQ.
Qed.

Lemma italic_re_match (prev : option cu) (B Q : jsstring) :
  B <> [] -> forallb notd B = true ->
  xorb (word_at prev) (is_word d) = true ->
  xorb (is_word d) (word_at (hd_error Q)) = true ->
  match_here (italic_re isd notd) [] prev (d :: B ++ d :: Q) = Some ([B], Q).
Proof.
  intros Hne HB Ho Hc. unfold italic_re. cbn [match_here hd_error word_at].
  rewrite Ho, isd_d.
  apply plus_run_lazy_through; [|exact Hne|exact HB|].
  - intros acc p x s Hx. cbn [match_here].
    rewrite forallb_forall in HB. now rewrite (notd_spec x (HB x Hx)).
  - cbn [match_here app hd_error word_at]. now rewrite isd_d, Hc.
Qed.

(** An italic run between texts that hold no delimiter, when the word
    boundaries are there. *)
Lemma italic_pass (o c P B Q : jsstring) (prev : option cu) :
  forallb (fun x => negb (isd x)) P = true ->
  B <> [] -> forallb notd B = true ->
  forallb (fun x => negb (isd x)) Q = true ->
  xorb (word_at (prev_after prev P)) (is_word d) = true ->
  xorb (is_word d) (word_at (hd_error Q)) = true ->
  replace_scan (italic_re isd notd) [TLit o; TGroup 1; TLit c] 0 prev
               (P ++ d :: B ++ d :: Q)
  = P ++ o ++ B ++ c ++ Q.
Proof.
  intros HP Hne HB HQ Ho Hc.
  rewrite (replace_scan_copy _ _ isd (fun p x s => italic_re_start p x s)) by exact HP.
  pose proof (italic_re_match (prev_after prev P) B Q Hne HB Ho Hc) as M.
  assert (E : d :: B ++ d :: Q = d :: (B ++ [d]) ++ Q).
  { simpl. now rewrite <- app_assoc. }
  rewrite E in M |- *.
  rewrite (replace_scan_at_match _ _ _ _ _ _ _ M).
  rewrite (replace_scan_untouched _ _ isd italic_re_nil
             (fun p x s => italic_re_start p x s)) by exact HQ.
  change (expand [TLit o; TGroup 1; TLit c] [B]) with (o ++ B ++ c ++ []).
  now rewrite app_nil_r, <- !app_assoc.
Qed.
End Emphasis.

Section EmphasisRefused.
Variables isd notd : cu -> bool.
Variable d : cu.
Hypothesis notd_spec : forall c, notd c = true -> isd c = false.
Hypothesis isd_d : isd d = true.

(** A run that never reaches a closing delimiter fails. *)
Lemma plus_run_no_closer (g : bool) (caps : list jsstring) (s : jsstring) :
  forallb (fun x => negb (isd x)) s = true ->
  forall acc,
    plus_run g notd
      (fun m prev' s' => match_here [Class isd; WordB] (caps ++ [m]) prev' s') acc s = None.
Proof.
  induction s as [|c s IH]; intros H acc; [reflexivity|].
  simpl in H. apply andb_true_iff in H as [_ Hs].
  cbn [plus_run]. destruct (notd c); [|reflexivity].
  assert (K : match_here [Class isd; WordB] (caps ++ [acc ++ [c]]) (Some c) s = None).
  { cbn [match_here]. destruct s as [|x s']; [reflexivity|].
    simpl in Hs. apply andb_true_iff in Hs as [Hx _]. apply negb_true_iff in Hx.
    now rewrite Hx. }
  cbv beta. destruct g.
  - rewrite (IH Hs (acc ++ [c])). exact K.
  - match goal with
    | |- match ?x with _ => _ end = _ =>
        replace x with (@None (list jsstring * jsstring)) by (symmetry; exact K)
    end.
    apply (IH Hs).
Qed.

(** A lazy run whose closing delimiter is not at a word boundary fails. *)
Lemma plus_run_bad_closer (caps : list jsstring) (B Q : jsstring) :
  forallb notd B = true ->
  xorb (is_word d) (word_at (hd_error Q)) = false ->
  forall acc,
    plus_run false notd
      (fun m prev' s' => match_here [Class isd; WordB] (caps ++ [m]) prev' s')
      acc (B ++ d :: Q) = None.
Proof.
  intros HB Hc. induction B as [|b B IH]; intro acc.
  - simpl. destruct (notd d) eqn:E; [|reflexivity].
    apply notd_spec in E. congruence.
  - simpl in HB. apply andb_true_iff in HB as [Hb HB].
    simpl app. cbn [plus_run]. rewrite Hb.
    assert (K : match_here [Class isd; WordB] (caps ++ [acc ++ [b]]) (Some b)
                           (B ++ d :: Q) = None).
    { cbn [match_here]. destruct B as [|x B'].
      - simpl app. cbn [hd_error word_at]. now rewrite isd_d, Hc.
      - simpl app. simpl in HB. apply andb_true_iff in HB as [Hx _].
        now rewrite (notd_spec x Hx). }
    cbv beta.
    match goal with
    | |- match ?x with _ => _ end = _ =>
        replace x with (@None (list jsstring * jsstring)) by (symmetry; exact K)
    end.
    now apply IH.
Qed.

(** Without both word boundaries the delimiters stay as they are. *)
Lemma italic_pass_refused (tpl : list tpl_part) (P B Q : jsstring) (prev : option cu) :
  forallb (fun x => negb (isd x)) P = true ->
  forallb notd B = true ->
  forallb (fun x => negb (isd x)) Q = true ->
  xorb (word_at (prev_after prev P)) (is_word d)
  && xorb (is_word d) (word_at (hd_error Q)) = false ->
  replace_scan (italic_re isd notd) tpl 0 prev (P ++ d :: B ++ d :: Q)
  = P ++ d :: B ++ d :: Q.
Proof.
  intros HP HB HQ Hx.
  assert (HB' : forallb (fun x => negb (isd x)) B = true).
  { rewrite forallb_forall in *. intros x Hin.
    now rewrite (notd_spec x (HB x Hin)). }
  rewrite (replace_scan_copy _ _ isd (fun p x s => italic_re_start isd notd p x s))
    by exact HP.
  f_equal. rewrite replace_scan_cons.
  assert (M1 : match_here (italic_re isd notd) [] (prev_after prev P) (d :: B ++ d :: Q)
               = None).
  { unfold italic_re. cbn [match_here hd_error word_at].
    destruct (xorb (word_at (prev_after prev P)) (is_word d)); [|reflexivity].
    rewrite isd_d. simpl in Hx. now apply plus_run_bad_closer. }
  rewrite M1. f_equal.
  rewrite (replace_scan_copy _ _ isd (fun p x s => italic_re_start isd notd p x s))
    by exact HB'.
  f_equal. rewrite replace_scan_cons.
  assert (M2 : forall p, match_here (italic_re isd notd) [] p (d :: Q) = None).
  { intro p. unfold italic_re. cbn [match_here hd_error word_at].
    destruct (xorb (word_at p) (is_word d)); [|reflexivity].
    rewrite isd_d. now apply plus_run_no_closer. }
  rewrite M2. f_equal.
  apply (replace_scan_untouched _ _ isd (italic_re_nil isd notd)
           (fun p x s => italic_re_start isd notd p x s)).
  exact HQ.
Qed.
End EmphasisRefused.

(** *** What escaping does to the neighbours of a delimiter *)

Lemma no_delims_star (s : jsstring) :
  no_delims s = true ->
  forallb (fun c => negb (is_star c)) s = true /\
  forallb (fun c => negb (is_underscore c)) s = true.
Proof.
  unfold no_delims. rewrite !forallb_forall. intro H.
  split; intros c Hc; specialize (H c Hc); apply negb_true_iff in H;
    apply not_delim in H as [H1 H2]; now rewrite ?H1, ?H2.
Qed.

Lemma italic_body_classes (s : jsstring) :
  italic_body s = true ->
  forallb not_star_nl s = true /\ forallb not_underscore_nl s = true /\
  no_delims s = true.
Proof.
  unfold italic_body, no_delims, not_star_nl, not_underscore_nl.
  rewrite !forallb_forall. intro H. repeat split; intros c Hc;
    specialize (H c Hc); apply andb_true_iff in H as [H1 H2];
    apply negb_true_iff in H1, H2; apply not_delim in H1 as [Hs Hu];
    unfold is_delim; now rewrite ?Hs, ?Hu, ?H2.
Qed.

Lemma escape_cu_italic_body (c : cu) :
  negb (is_delim c) && negb (cu_eqb c LF) = true -> italic_body (escape_cu c) = true.
Proof.
  intro H. unfold escape_cu.
  destruct (cu_eqb c AMP); [reflexivity|].
  destruct (cu_eqb c NBSP); [reflexivity|].
  destruct (cu_eqb c LT); [reflexivity|].
  destruct (cu_eqb c GT); [reflexivity|].
  unfold italic_body. simpl. now rewrite H.
Qed.

Lemma escapeHTML_italic_body (s : jsstring) :
  italic_body s = true -> italic_body (escapeHTML s) = true.
Proof.
  unfold escapeHTML. induction s as [|c s IH]; intro H; [reflexivity|].
  unfold italic_body in H. simpl in H. apply andb_true_iff in H as [Hc Hs].
  simpl. unfold italic_body. rewrite forallb_app.
  fold (italic_body (escape_cu c)). fold (italic_body (flat_map escape_cu s)).
  now rewrite (escape_cu_italic_body c Hc), (IH Hs).
Qed.

Lemma escape_cu_no_delims (c : cu) :
  is_delim c = false -> no_delims (escape_cu c) = true.
Proof.
  intro H. unfold escape_cu.
  destruct (cu_eqb c AMP); [reflexivity|].
  destruct (cu_eqb c NBSP); [reflexivity|].
  destruct (cu_eqb c LT); [reflexivity|].
  destruct (cu_eqb c GT); [reflexivity|].
  unfold no_delims. simpl. now rewrite H.
Qed.

Lemma escapeHTML_no_delims (s : jsstring) :
  no_delims s = true -> no_delims (escapeHTML s) = true.
Proof.
  unfold escapeHTML. induction s as [|c s IH]; intro H; [reflexivity|].
  unfold no_delims in H. simpl in H. apply andb_true_iff in H as [Hc Hs].
  apply negb_true_iff in Hc.
  simpl. unfold no_delims. rewrite forallb_app.
  fold (no_delims (escape_cu c)). fold (no_delims (flat_map escape_cu s)).
  now rewrite (escape_cu_no_delims c Hc), (IH Hs).
Qed.

Lemma escapeHTML_nonempty (s : jsstring) : s <> [] -> escapeHTML s <> [].
Proof.
  intros H E. apply H. pose proof (escapeHTML_length s) as L.
  rewrite E in L. destruct s; [reflexivity|simpl in L; lia].
Qed.

Lemma special_not_word (c : cu) : is_special c = true -> is_word c = false.
Proof.
  unfold is_special, cu_eqb, AMP, NBSP, LT, GT. intro H.
  repeat (apply orb_true_iff in H as [H | H]);
    apply N.eqb_eq in H; subst; reflexivity.
Qed.

Lemma escape_cu_last_word (c : cu) (p : option cu) :
  word_at (prev_after p (escape_cu c)) = is_word c.
Proof.
  destruct (is_special c) eqn:E.
  - rewrite (special_not_word c E). unfold escape_cu, is_special in *.
    destruct (cu_eqb c AMP); [reflexivity|].
    destruct (cu_eqb c NBSP); [reflexivity|].
    destruct (cu_eqb c LT); [reflexivity|].
    destruct (cu_eqb c GT); [reflexivity|discriminate E].
  - now rewrite (is_special_escape c E).
Qed.

(** Escaping keeps whether the text ends in a word character. *)
Lemma escapeHTML_last_word (s : jsstring) :
  forall p p', word_at p = word_at p' ->
               word_at (prev_after p (escapeHTML s)) = word_at (prev_after p' s).
Proof.
  induction s as [|c s IH]; intros p p' H; [exact H|].
  change (escapeHTML (c :: s)) with (escape_cu c ++ escapeHTML s).
  rewrite prev_after_app. apply IH. apply escape_cu_last_word.
Qed.

(** Escaping keeps whether the text starts with a word character. *)
Lemma escapeHTML_first_word (s : jsstring) :
  word_at (hd_error (escapeHTML s)) = word_at (hd_error s).
Proof.
  destruct s as [|c s]; [reflexivity|].
  change (escapeHTML (c :: s)) with (escape_cu c ++ escapeHTML s).
  destruct (is_special c) eqn:E.
  - simpl hd_error at 2. cbn [word_at]. rewrite (special_not_word c E).
    unfold escape_cu, is_special in *.
    destruct (cu_eqb c AMP); [reflexivity|].
    destruct (cu_eqb c NBSP); [reflexivity|].
    destruct (cu_eqb c LT); [reflexivity|].
    destruct (cu_eqb c GT); [reflexivity|discriminate E].
  - now rewrite (is_special_escape c E).
Qed.

(** *** The four passes of [parseInlineMarkdown] *)

Lemma not_star_spec (c : cu) : not_star c = true -> is_star c = false.
Proof. unfold not_star. apply negb_true_iff. Qed.

Lemma not_underscore_spec (c : cu) : not_underscore c = true -> is_underscore c = false.
Proof. unfold not_underscore. apply negb_true_iff. Qed.

Lemma not_star_nl_spec (c : cu) : not_star_nl c = true -> is_star c = false.
Proof.
  unfold not_star_nl. intro H. apply negb_true_iff, orb_false_iff in H. tauto.
Qed.

Lemma not_underscore_nl_spec (c : cu) : not_underscore_nl c = true -> is_underscore c = false.
Proof.
  unfold not_underscore_nl. intro H. apply negb_true_iff, orb_false_iff in H. tauto.
Qed.

Lemma untouched_bold_star (tpl : list tpl_part) (s : jsstring) :
  forallb (fun c => negb (is_star c)) s = true -> replace_all re_bold_star tpl s = s.
Proof.
  apply (replace_scan_untouched re_bold_star tpl is_star
           (bold_re_nil is_star not_star)
           (fun p x t => bold_re_start is_star not_star p x t)).
Qed.

Lemma untouched_bold_underscore (tpl : list tpl_part) (s : jsstring) :
  forallb (fun c => negb (is_underscore c)) s = true ->
  replace_all re_bold_underscore tpl s = s.
Proof.
  apply (replace_scan_untouched re_bold_underscore tpl is_underscore
           (bold_re_nil is_underscore not_underscore)
           (fun p x t => bold_re_start is_underscore not_underscore p x t)).
Qed.

Lemma untouched_italic_star (tpl : list tpl_part) (s : jsstring) :
  forallb (fun c => negb (is_star c)) s = true -> replace_all re_italic_star tpl s = s.
Proof.
  apply (replace_scan_untouched re_italic_star tpl is_star
           (italic_re_nil is_star not_star_nl)
           (fun p x t => italic_re_start is_star not_star_nl p x t)).
Qed.

Lemma untouched_italic_underscore (tpl : list tpl_part) (s : jsstring) :
  forallb (fun c => negb (is_underscore c)) s = true ->
  replace_all re_italic_underscore tpl s = s.
Proof.
  apply (replace_scan_untouched re_italic_underscore tpl is_underscore
           (italic_re_nil is_underscore not_underscore_nl)
           (fun p x t => italic_re_start is_underscore not_underscore_nl p x t)).
Qed.

(** X3. Text without [*] and [_] gets no emphasis: its inline rendering is
    its escaped form. *)
Theorem inline_without_delimiters_is_escape (s : jsstring) :
  no_delims s = true -> parseInlineMarkdown s = escapeHTML s.
Proof.
  intro H. apply escapeHTML_no_delims, no_delims_star in H as [Hs Hu].
  unfold parseInlineMarkdown. cbv zeta.
  rewrite (untouched_bold_star _ _ Hs), (untouched_bold_underscore _ _ Hu),
    (untouched_italic_star _ _ Hs).
  now apply untouched_italic_underscore.
Qed.

Lemma inline_without_delimiters_is_escape_witness :
  no_delims (js "R&D <draft>") = true /\
  parseInlineMarkdown (js "R&D <draft>") = js "R&amp;D &lt;draft&gt;".
Proof.
  split; [reflexivity|].
  exact (inline_without_delimiters_is_escape (js "R&D <draft>") eq_refl).
Defined.

Lemma no_delims_app (a b : jsstring) :
  no_delims (a ++ b) = no_delims a && no_delims b.
Proof. apply forallb_app. Qed.

Lemma no_delims_not_star (s : jsstring) :
  no_delims s = true -> forallb not_star s = true /\ forallb not_underscore s = true.
Proof. intro H. exact (no_delims_star s H). Qed.

Lemma emphasised_clean (o c P B Q : jsstring) :
  no_delims o = true -> no_delims c = true ->
  no_delims P = true -> no_delims B = true -> no_delims Q = true ->
  no_delims (P ++ o ++ B ++ c ++ Q) = true.
Proof.
  intros Ho Hc HP HB HQ. rewrite !no_delims_app. now rewrite Ho, Hc, HP, HB, HQ.
Qed.

Lemma escapeHTML_around (d : cu) (ds pre body post : jsstring) :
  escapeHTML ds = ds ->
  escapeHTML (pre ++ ds ++ body ++ ds ++ post)
  = escapeHTML pre ++ ds ++ escapeHTML body ++ ds ++ escapeHTML post.
Proof.
  intro H. unfold escapeHTML in *. rewrite !flat_map_app. now rewrite H.
Qed.

(** X4. Between texts without delimiters, a non-empty text without
    delimiters wrapped in [**] or in [__] becomes a bold span around its
    escaped form, with the escaped neighbours on both sides. *)
Theorem double_delimiters_make_bold (pre body post : jsstring) :
  no_delims pre = true -> no_delims body = true -> body <> [] ->
  no_delims post = true ->
  parseInlineMarkdown (pre ++ js "**" ++ body ++ js "**" ++ post)
  = escapeHTML pre ++ STRONG_OPEN ++ escapeHTML body ++ STRONG_CLOSE ++ escapeHTML post /\
  parseInlineMarkdown (pre ++ js "__" ++ body ++ js "__" ++ post)
  = escapeHTML pre ++ STRONG_OPEN ++ escapeHTML body ++ STRONG_CLOSE ++ escapeHTML post.
Proof.
  intros Hpre Hbody Hne Hpost.
  pose proof (escapeHTML_no_delims _ Hpre) as HP.
  pose proof (escapeHTML_no_delims _ Hbody) as HB.
  pose proof (escapeHTML_no_delims _ Hpost) as HQ.
  pose proof (escapeHTML_nonempty _ Hne) as HBne.
  destruct (no_delims_star _ HP) as [HPs HPu].
  destruct (no_delims_star _ HB) as [HBs HBu].
  destruct (no_delims_star _ HQ) as [HQs HQu].
  assert (HR : no_delims (escapeHTML pre ++ STRONG_OPEN ++ escapeHTML body
                          ++ STRONG_CLOSE ++ escapeHTML post) = true)
    by (apply emphasised_clean; auto).
  destruct (no_delims_star _ HR) as [HRs HRu].
  unfold parseInlineMarkdown. cbv zeta. split.
  - rewrite (escapeHTML_around STAR (js "**")) by reflexivity.
    assert (P1 : replace_all re_bold_star tpl_strong
                   (escapeHTML pre ++ js "**" ++ escapeHTML body ++ js "**" ++ escapeHTML post)
                 = escapeHTML pre ++ STRONG_OPEN ++ escapeHTML body
                   ++ STRONG_CLOSE ++ escapeHTML post).
    { apply (bold_pass is_star not_star STAR not_star_spec eq_refl); assumption. }
    rewrite P1, (untouched_bold_underscore _ _ HRu), (untouched_italic_star _ _ HRs).
    now apply untouched_italic_underscore.
  - rewrite (escapeHTML_around UNDERSCORE (js "__")) by reflexivity.
    assert (P0 : forallb (fun c => negb (is_star c))
                   (escapeHTML pre ++ js "__" ++ escapeHTML body ++ js "__" ++ escapeHTML post)
                 = true).
    { rewrite !forallb_app. now rewrite HPs, HBs, HQs. }
    rewrite (untouched_bold_star _ _ P0).
    assert (P2 : replace_all re_bold_underscore tpl_strong
                   (escapeHTML pre ++ js "__" ++ escapeHTML body ++ js "__" ++ escapeHTML post)
                 = escapeHTML pre ++ STRONG_OPEN ++ escapeHTML body
                   ++ STRONG_CLOSE ++ escapeHTML post).
    { apply (bold_pass is_underscore not_underscore UNDERSCORE not_underscore_spec eq_refl);
        assumption. }
    rewrite P2, (untouched_italic_star _ _ HRs).
    now apply untouched_italic_underscore.
Qed.

Lemma double_delimiters_make_bold_witness :
  no_delims (js "Press ") = true /\ js "Q & A" <> [] /\
  parseInlineMarkdown (js "Press " ++ js "**" ++ js "Q & A" ++ js "**" ++ js ", then <Esc>")
  = js "Press <strong>Q &amp; A</strong>, then &lt;Esc&gt;".
Proof.
  split; [reflexivity|]. split; [discriminate|].
  exact (proj1 (double_delimiters_make_bold (js "Press ") (js "Q & A") (js ", then <Esc>")
                  eq_refl eq_refl ltac:(discriminate) eq_refl)).
Defined.

Lemma escapeHTML_around1 (d : cu) (pre body post : jsstring) :
  is_special d = false ->
  escapeHTML (pre ++ [d] ++ body ++ [d] ++ post)
  = escapeHTML pre ++ d :: escapeHTML body ++ d :: escapeHTML post.
Proof.
  intro H. unfold escapeHTML. rewrite !flat_map_app. simpl flat_map.
  rewrite (is_special_escape d H), !app_nil_r. reflexivity.
Qed.

(** X5. A non-empty text without delimiters or line feed between single
    delimiters, with neighbours that hold no delimiter: between stars it
    becomes an italic span exactly when a word character stands right
    before the opening star and right after the closing one; between
    underscores exactly when no word character stands there.  Otherwise
    the delimiters stay in the text. *)
Theorem single_delimiters_make_italic_at_word_boundaries (pre body post : jsstring) :
  no_delims pre = true -> italic_body body = true -> body <> [] ->
  no_delims post = true ->
  parseInlineMarkdown (pre ++ [STAR] ++ body ++ [STAR] ++ post)
  = (if word_at (prev_after None pre) && word_at (hd_error post)
     then escapeHTML pre ++ EM_OPEN ++ escapeHTML body ++ EM_CLOSE ++ escapeHTML post
     else escapeHTML pre ++ [STAR] ++ escapeHTML body ++ [STAR] ++ escapeHTML post) /\
  parseInlineMarkdown (pre ++ [UNDERSCORE] ++ body ++ [UNDERSCORE] ++ post)
  = (if negb (word_at (prev_after None pre)) && negb (word_at (hd_error post))
     then escapeHTML pre ++ EM_OPEN ++ escapeHTML body ++ EM_CLOSE ++ escapeHTML post
     else escapeHTML pre ++ [UNDERSCORE] ++ escapeHTML body ++ [UNDERSCORE]
          ++ escapeHTML post).
Proof.
  intros Hpre Hbody Hne Hpost.
  pose proof (escapeHTML_no_delims _ Hpre) as HP.
  pose proof (escapeHTML_italic_body _ Hbody) as HB.
  pose proof (escapeHTML_no_delims _ Hpost) as HQ.
  pose proof (escapeHTML_nonempty _ Hne) as HBne.
  destruct (italic_body_classes _ HB) as (HBsn & HBun & HBd).
  destruct (no_delims_star _ HP) as [HPs HPu].
  destruct (no_delims_star _ HBd) as [HBs HBu].
  destruct (no_delims_star _ HQ) as [HQs HQu].
  assert (HR : no_delims (escapeHTML pre ++ EM_OPEN ++ escapeHTML body
                          ++ EM_CLOSE ++ escapeHTML post) = true)
    by (apply emphasised_clean; auto).
  destruct (no_delims_star _ HR) as [HRs HRu].
  pose proof (escapeHTML_last_word pre None None eq_refl) as Wl.
  pose proof (escapeHTML_first_word post) as Wf.
  unfold parseInlineMarkdown. cbv zeta. split.
  - rewrite (escapeHTML_around1 STAR) by reflexivity.
    set (s0 := escapeHTML pre ++ STAR :: escapeHTML body ++ STAR :: escapeHTML post).
    assert (P1 : replace_all re_bold_star tpl_strong s0 = s0).
    { apply (bold_pass_single is_star not_star STAR eq_refl); assumption. }
    assert (U0 : forallb (fun c => negb (is_underscore c)) s0 = true).
    { unfold s0. rewrite !forallb_app. simpl. rewrite !forallb_app. simpl.
      now rewrite HPu, HBu, HQu. }
    rewrite P1, (untouched_bold_underscore _ _ U0).
    destruct (word_at (prev_after None pre) && word_at (hd_error post)) eqn:C.
    + apply andb_true_iff in C as [C1 C2].
      assert (P3 : replace_all re_italic_star tpl_em s0
                   = escapeHTML pre ++ EM_OPEN ++ escapeHTML body
                     ++ EM_CLOSE ++ escapeHTML post).
      { apply (italic_pass is_star not_star_nl STAR not_star_nl_spec eq_refl);
          try assumption.
        - cbn [prev_after]. change (fold_left _ (escapeHTML pre) None)
            with (prev_after None (escapeHTML pre)).
          rewrite Wl, C1. reflexivity.
        - rewrite Wf, C2. reflexivity. }
      rewrite P3. now apply untouched_italic_underscore.
    + assert (P3 : replace_all re_italic_star tpl_em s0 = s0).
      { apply (italic_pass_refused is_star not_star_nl STAR not_star_nl_spec eq_refl);
          try assumption.
        rewrite Wl, Wf. change (is_word STAR) with false.
        now rewrite !xorb_false_r, ?xorb_false_l. }
      rewrite P3, (untouched_italic_underscore _ _ U0). reflexivity.
  - rewrite (escapeHTML_around1 UNDERSCORE) by reflexivity.
    set (s0 := escapeHTML pre ++ UNDERSCORE :: escapeHTML body
               ++ UNDERSCORE :: escapeHTML post).
    assert (S0 : forallb (fun c => negb (is_star c)) s0 = true).
    { unfold s0. rewrite !forallb_app. simpl. rewrite !forallb_app. simpl.
      now rewrite HPs, HBs, HQs. }
    assert (P2 : replace_all re_bold_underscore tpl_strong s0 = s0).
    { apply (bold_pass_single is_underscore not_underscore UNDERSCORE eq_refl);
        assumption. }
    rewrite (untouched_bold_star _ _ S0), P2, (untouched_italic_star _ _ S0).
    destruct (negb (word_at (prev_after None pre)) && negb (word_at (hd_error post)))
      eqn:C.
    + apply andb_true_iff in C as [C1 C2].
      apply (italic_pass is_underscore not_underscore_nl UNDERSCORE
               not_underscore_nl_spec eq_refl); try assumption.
      * rewrite Wl. change (is_word UNDERSCORE) with true.
        now rewrite xorb_true_r.
      * rewrite Wf. change (is_word UNDERSCORE) with true. now rewrite xorb_true_l.
    + apply (italic_pass_refused is_underscore not_underscore_nl UNDERSCORE
               not_underscore_nl_spec eq_refl); try assumption.
      rewrite Wl, Wf. change (is_word UNDERSCORE) with true.
      destruct (word_at (prev_after None pre)), (word_at (hd_error post));
        simpl in *; congruence.
Qed.

Lemma single_delimiters_make_italic_at_word_boundaries_witness :
  no_delims (js "see ") = true /\ italic_body (js "the note") = true /\
  parseInlineMarkdown (js "see " ++ [UNDERSCORE] ++ js "the note" ++ [UNDERSCORE] ++ js ".")
  = js "see <em>the note</em>." /\
  parseInlineMarkdown (js "see " ++ [STAR] ++ js "the note" ++ [STAR] ++ js ".")
  = js "see *the note*.".
Proof.
  split; [reflexivity|]. split; [reflexivity|].
  destruct (single_delimiters_make_italic_at_word_boundaries
              (js "see ") (js "the note") (js ".")
              eq_refl eq_refl ltac:(discriminate) eq_refl) as [Hs Hu].
  split; [exact Hu|exact Hs].
Defined.

(** ** Shape of the rendering *)

Lemma nesting_app (a b : list piece) :
  forall st, nesting st (a ++ b)
             = match nesting st a with
               | Some st' => nesting st' b
               | None => None
               end.
Proof.
  induction a as [|p a IH]; intro st; [reflexivity|].
  simpl. destruct p, st; try reflexivity; apply IH.
Qed.

Lemma close_paragraph_nested (st : render_state) :
  nested st -> nested (close_paragraph st).
Proof.
  unfold nested, close_paragraph. intro H.
  destruct (inParagraph st) eqn:E; [|now rewrite E].
  simpl. now rewrite nesting_app, H.
Qed.

Lemma push_block_nested (p : piece) (st : render_state) :
  (exists l b, p = PHeading l b) \/ (exists i b, p = PStep i b) ->
  inParagraph st = false -> nested st -> nested (push p st).
Proof.
  unfold nested, push. simpl. intros Hp E H. rewrite nesting_app, H, E.
  destruct Hp as [(l & b & ->) | (i & b & ->)]; reflexivity.
Qed.

Lemma process_line_nested (now : nat -> Z) (st : render_state) (raw : jsstring) :
  nested st -> nested (process_line now st raw).
Proof.
  intro H. unfold process_line, heading.
  destruct (startsWith (js "### ") (trim raw)).
  { apply push_block_nested; [left; now do 2 eexists|apply close_paragraph_closed|
                              now apply close_paragraph_nested]. }
  destruct (startsWith (js "## ") (trim raw)).
  { apply push_block_nested; [left; now do 2 eexists|apply close_paragraph_closed|
                              now apply close_paragraph_nested]. }
  destruct (startsWith (js "# ") (trim raw)).
  { apply push_block_nested; [left; now do 2 eexists|apply close_paragraph_closed|
                              now apply close_paragraph_nested]. }
  destruct (numberedMatch (trim raw)) as [caps|].
  - pose proof (close_paragraph_nested st H) as H'.
    pose proof (close_paragraph_closed st) as E. revert H' E.
    generalize (close_paragraph st). intros st' H' E.
    unfold nested in *. cbn [output inParagraph].
    now rewrite nesting_app, H', E.
  - destruct (trim raw) as [|c t].
    + now apply close_paragraph_nested.
    + unfold nested in *.
      destruct (inParagraph st) eqn:E; unfold push; cbn [output inParagraph];
        rewrite ?E, <- ?app_assoc, nesting_app, H; reflexivity.
Qed.

Lemma render_lines_nested (now : nat -> Z) (lines : list jsstring) :
  forall st, nested st -> nested (render_lines now st lines).
Proof.
  induction lines as [|l ls IH]; intros st H; simpl; [exact H|].
  apply IH. now apply process_line_nested.
Qed.

(** X6. The pieces of every rendering are well nested: each paragraph is
    [<p>], a text, then any number of [<br>] and a text, then [</p>];
    headings and steps stand outside paragraphs; nothing is left open. *)
Theorem rendering_is_well_nested (now : nat -> Z) (text : jsstring) :
  nesting Outside (render_pieces now text) = Some Outside.
Proof.
  unfold render_pieces.
  pose proof (close_paragraph_nested _
                (render_lines_nested now (split_lines text) init_state eq_refl)) as H.
  unfold nested in H. now rewrite close_paragraph_closed in H.
Qed.

(** ** Blank text *)

Lemma split_lines_blank (s : jsstring) :
  forallb blank (split_lines s) = blank s.
Proof.
  induction s as [|c s IH]; [reflexivity|].
  simpl split_lines. destruct (cu_eqb c LF) eqn:E.
  - apply cu_eqb_eq in E. subst c. simpl. exact IH.
  - destruct (split_lines s) as [|l ls]; simpl in *.
    + now rewrite <- IH, andb_true_r.
    + now rewrite <- IH, andb_assoc.
Qed.

Lemma render_lines_blank (now : nat -> Z) (lines : list jsstring) (st : render_state) :
  forallb blank lines = true -> inParagraph st = false ->
  render_lines now st lines = st.
Proof.
  induction lines as [|l ls IH]; intros H E; [reflexivity|].
  simpl in H. apply andb_true_iff in H as [Hl Hls].
  simpl. rewrite process_line_blank by exact Hl.
  unfold close_paragraph. rewrite E. now apply IH.
Qed.

Lemma heading_tag_html (l : level) (body : jsstring) :
  piece_html (PHeading l body) <> [].
Proof. destruct l; discriminate. Qed.

(** Each line appends to the output, and a line that is not blank appends
    markup. *)
Lemma process_line_appends (now : nat -> Z) (st : render_state) (raw : jsstring) :
  exists suffix,
    output (process_line now st raw) = output st ++ suffix /\
    (blank raw = false -> flat_map piece_html suffix <> []).
Proof.
  unfold process_line, heading.
  destruct (startsWith (js "### ") (trim raw)).
  { eexists. cbn [push output]. rewrite close_paragraph_output, <- app_assoc.
    split; [reflexivity|]. intros _. rewrite flat_map_app. simpl.
    destruct (inParagraph st); discriminate. }
  destruct (startsWith (js "## ") (trim raw)).
  { eexists. cbn [push output]. rewrite close_paragraph_output, <- app_assoc.
    split; [reflexivity|]. intros _. rewrite flat_map_app. simpl.
    destruct (inParagraph st); discriminate. }
  destruct (startsWith (js "# ") (trim raw)).
  { eexists. cbn [push output]. rewrite close_paragraph_output, <- app_assoc.
    split; [reflexivity|]. intros _. rewrite flat_map_app. simpl.
    destruct (inParagraph st); discriminate. }
  destruct (numberedMatch (trim raw)) as [caps|].
  - eexists. cbn [output]. rewrite close_paragraph_output, <- app_assoc.
    split; [reflexivity|]. intros _. rewrite flat_map_app. simpl.
    destruct (inParagraph st); discriminate.
  - destruct (trim raw) as [|c t] eqn:E.
    + eexists. rewrite close_paragraph_output. split; [reflexivity|].
      intro Hb. apply trim_nil_iff in E. congruence.
    + destruct (inParagraph st); eexists; unfold push; cbn [output];
        rewrite <- app_assoc; (split; [reflexivity|]); intros _; discriminate.
Qed.

Lemma render_lines_appends (now : nat -> Z) (lines : list jsstring) :
  forall st, exists suffix,
    output (render_lines now st lines) = output st ++ suffix /\
    (forallb blank lines = false -> flat_map piece_html suffix <> []).
Proof.
  induction lines as [|l ls IH]; intro st.
  - exists []. rewrite app_nil_r. split; [reflexivity|discriminate].
  - simpl render_lines.
    destruct (process_line_appends now st l) as (s1 & E1 & N1).
    destruct (IH (process_line now st l)) as (s2 & E2 & N2).
    exists (s1 ++ s2). rewrite E2, E1, <- app_assoc. split; [reflexivity|].
    simpl. intro H. rewrite flat_map_app. intro Z.
    apply app_eq_nil in Z as [Z1 Z2].
    destruct (blank l) eqn:Bl.
    + simpl in H. now apply N2.
    + now apply N1.
Qed.

(** X7. The rendering is the empty string exactly when the text is empty
    or white space only. *)
Theorem rendering_is_empty_iff_text_is_blank (now : nat -> Z) (text : jsstring) :
  parseMarkdownToHTML now text = [] <-> blank text = true.
Proof.
  unfold parseMarkdownToHTML, render_pieces. split.
  - intro H. destruct (blank text) eqn:B; [reflexivity|exfalso].
    rewrite <- split_lines_blank in B.
    destruct (render_lines_appends now (split_lines text) init_state) as (s & E & N).
    rewrite close_paragraph_output, E, !flat_map_app in H. simpl in H.
    apply app_eq_nil in H as [H _]. now apply (N B).
  - intro B. rewrite <- split_lines_blank in B.
    now rewrite render_lines_blank.
Qed.

Lemma rendering_is_empty_iff_text_is_blank_witness :
  blank ([32%N; LF; TAB; 13%N; LF]) = true /\
  parseMarkdownToHTML clock0 [32%N; LF; TAB; 13%N; LF] = [].
Proof.
  split; [reflexivity|].
  apply (proj2 (rendering_is_empty_iff_text_is_blank clock0 _)). reflexivity.
Defined.

(** ** Blank lines separate independent renderings *)

Lemma split_lines_nonempty (s : jsstring) : split_lines s <> [].
Proof.
  destruct s as [|c s]; simpl; [discriminate|].
  destruct (cu_eqb c LF); [discriminate|].
  destruct (split_lines s); discriminate.
Qed.

Lemma split_lines_at_lf (a t : jsstring) :
  split_lines (a ++ LF :: t) = split_lines a ++ split_lines t.
Proof.
  induction a as [|c a IH]; [reflexivity|].
  simpl. destruct (cu_eqb c LF).
  - now rewrite IH.
  - rewrite IH. pose proof (split_lines_nonempty a) as N.
    destruct (split_lines a) as [|l ls]; [contradiction|reflexivity].
Qed.

Lemma continues_close (o : list piece) (st1 st2 : render_state) :
  continues o st1 st2 -> continues o (close_paragraph st1) (close_paragraph st2).
Proof.
  unfold continues. intros [Ho Hp]. rewrite !close_paragraph_closed.
  rewrite !close_paragraph_output, !map_app, Ho, Hp, app_assoc. now split.
Qed.

Lemma continues_push (o : list piece) (p1 p2 : piece) (st1 st2 : render_state) :
  erase_id p1 = erase_id p2 ->
  continues o st1 st2 -> continues o (push p1 st1) (push p2 st2).
Proof.
  unfold continues, push. simpl. intros Hp [Ho Hi].
  rewrite !map_app, Ho. simpl. rewrite Hp, app_assoc. now split.
Qed.

Lemma process_line_continues (now1 now2 : nat -> Z) (o : list piece)
      (st1 st2 : render_state) (raw : jsstring) :
  continues o st1 st2 ->
  continues o (process_line now1 st1 raw) (process_line now2 st2 raw).
Proof.
  intro H. unfold process_line, heading.
  destruct (startsWith (js "### ") (trim raw)).
  { apply continues_push; [reflexivity|]. now apply continues_close. }
  destruct (startsWith (js "## ") (trim raw)).
  { apply continues_push; [reflexivity|]. now apply continues_close. }
  destruct (startsWith (js "# ") (trim raw)).
  { apply continues_push; [reflexivity|]. now apply continues_close. }
  destruct (numberedMatch (trim raw)) as [caps|].
  - apply continues_close in H. revert H.
    generalize (close_paragraph st1) (close_paragraph st2).
    intros s1 s2 [Ho Hi]. unfold continues. cbn [output inParagraph].
    rewrite !map_app, Ho. simpl. rewrite app_assoc. now split.
  - destruct (trim raw).
    + now apply continues_close.
    + apply continues_push; [reflexivity|].
      destruct H as [Ho Hi]. rewrite <- Hi.
      destruct (inParagraph st1) eqn:E.
      * apply continues_push; [reflexivity|]. split; congruence.
      * unfold continues. cbn [output inParagraph].
        rewrite !map_app, Ho. simpl. rewrite app_assoc. now split.
Qed.

Lemma render_lines_continues (now1 now2 : nat -> Z) (o : list piece)
      (lines : list jsstring) :
  forall st1 st2,
    continues o st1 st2 ->
    continues o (render_lines now1 st1 lines) (render_lines now2 st2 lines).
Proof.
  induction lines as [|l ls IH]; intros st1 st2 H; simpl; [exact H|].
  apply IH. now apply process_line_continues.
Qed.

(** X8. A blank line is a hard boundary: up to the step identifiers, the
    rendering of two texts with an empty line between them is the rendering
    of the first followed by the rendering of the second. *)
Theorem blank_line_splits_rendering (now : nat -> Z) (a b : jsstring) :
  map erase_id (render_pieces now (a ++ LF :: LF :: b))
  = map erase_id (render_pieces now a) ++ map erase_id (render_pieces now b).
Proof.
  unfold render_pieces.
  rewrite split_lines_at_lf.
  change (split_lines (LF :: b)) with ([] :: split_lines b).
  rewrite render_lines_app.
  change (render_lines now ?s ([] :: ?l))
    with (render_lines now (process_line now s []) l).
  rewrite process_line_blank by reflexivity.
  set (st1 := close_paragraph (render_lines now init_state (split_lines a))).
  assert (C : continues (map erase_id (output st1)) st1 init_state).
  { split; [simpl; now rewrite app_nil_r|apply close_paragraph_closed]. }
  apply (render_lines_continues now now _ (split_lines b)) in C.
  apply continues_close in C. exact (proj1 C).
Qed.

(** ** Heading markers *)

Lemma regex_match_numbered_later (s : jsstring) (c : cu) :
  regex_match re_numbered (Some c) s = None.
Proof.
  revert c. induction s as [|x s IH]; intro c; [reflexivity|].
  simpl. apply IH.
Qed.




(** ** Line endings *)

Lemma trim_trailing_cr (l : jsstring) : trim (l ++ [13%N]) = trim l.
Proof. apply (trim_padding [] l [13%N]); reflexivity. Qed.

Lemma split_lines_crlf (s : jsstring) :
  Forall2 (fun x y => x = y \/ x = y ++ [13%N]) (split_lines (to_crlf s)) (split_lines s).
Proof.
  induction s as [|c s IH].
  - repeat constructor.
  - unfold to_crlf. simpl flat_map. fold (to_crlf s).
    simpl split_lines at 2. destruct (cu_eqb c LF) eqn:E.
    + change (split_lines ([13%N; LF] ++ to_crlf s)) with ([13%N] :: split_lines (to_crlf s)).
      constructor; [now right|exact IH].
    + simpl app. simpl split_lines. rewrite E.
      pose proof (split_lines_nonempty s) as N.
      destruct (split_lines s) as [|y ys]; [contradiction|].
      destruct (split_lines (to_crlf s)) as [|x xs]; [inversion IH|].
      inversion IH as [|? ? ? ? Hxy Hrest]; subst.
      constructor; [|exact Hrest].
      destruct Hxy as [-> | ->]; [now left|now right].
Qed.

Lemma crlf_same_trimmed_lines (s : jsstring) :
  map trim (split_lines (to_crlf s)) = map trim (split_lines s).
Proof.
  induction (split_lines_crlf s) as [|x y xs ys Hxy _ IH]; [reflexivity|].
  simpl. rewrite IH. f_equal.
  destruct Hxy as [-> | ->]; [reflexivity|apply trim_trailing_cr].
Qed.

(** X10. A text renders the same with CR LF line ends as with LF line
    ends: the carriage return before a line feed is trimmed away. *)
Theorem crlf_renders_like_lf (now : nat -> Z) (text : jsstring) :
  render_pieces now (to_crlf text) = render_pieces now text /\
  parseMarkdownToHTML now (to_crlf text) = parseMarkdownToHTML now text.
Proof.
  assert (H : render_pieces now (to_crlf text) = render_pieces now text).
  { unfold render_pieces.
    now rewrite <- (render_lines_trim now (split_lines (to_crlf text))),
      crlf_same_trimmed_lines, render_lines_trim. }
  split; [exact H|]. unfold parseMarkdownToHTML. now rewrite H.
Qed.

(** ** The handler and the event loop *)


Section PageFacts.
Variable num : Type.
Variable JSON_parse : jsstring -> option (json num).
Variable JSON_stringify : json num -> jsstring.
Variable JSON_stringify_indent : json num -> jsstring.
Variable to_string : json num -> jsstring.
Variable num_truthy : num -> bool.
Variable nowTime : nat -> jsstring.
Variable dateNow : nat -> nat -> Z.

Let sendUserQuery_ := sendUserQuery JSON_stringify nowTime dateNow.
Let saveApiKey_ := saveApiKey JSON_stringify.
Let dispatch_ := dispatch JSON_parse JSON_stringify JSON_stringify_indent to_string
                          num_truthy nowTime dateNow.
Let run_ := run JSON_parse JSON_stringify JSON_stringify_indent to_string
                num_truthy nowTime dateNow.

(** The payload of a [userQuery] call for the text [t]. *)
Let query (t : jsstring) : jsstring := JSON_stringify (JObj [(js "text", JStr t)]).
















(** X15. Enter without Shift submits like the send button, also while the
    button is disabled: two submissions before any reply make two calls on
    the bridge.  Enter with Shift, or another key, changes nothing. *)
Theorem enter_submits_even_while_sending (pg : page) (t1 t2 key : jsstring) :
  blank t1 = false -> blank t2 = false ->
  let pg' := run_ [EditChat t1; ClickSend; EditChat t2; Keydown (js "Enter") false] pg in
  bridge_calls (pal pg')
  = bridge_calls (pal pg) ++ [(js "userQuery", query (trim t1));
                              (js "userQuery", query (trim t2))] /\
  sendBtn_disabled (pal (run_ [EditChat t1; ClickSend] pg)) = true /\
  dispatch_ (Keydown (js "Enter") true) pg = pg /\
  (key <> js "Enter" -> forall shift, dispatch_ (Keydown key shift) pg = pg).
Proof.
  intros B1 B2.
  assert (T1 : trim t1 <> []) by (intro E; apply trim_nil_iff in E; congruence).
  assert (T2 : trim t2 <> []) by (intro E; apply trim_nil_iff in E; congruence).
  cbv zeta. split; [|split; [|split]].
  - unfold run_, run, dispatch_. cbn [fold_left dispatch].
    simpl str_eqb. cbn [andb negb].
    unfold on_pal, sendUserQuery. cbn [pal set_chatInput chatInput].
    destruct (trim t1) as [|a1 r1] eqn:E1; [contradiction|].
    cbn [pal set_chatInput chatInput bridge_calls appendMessage].
    destruct (trim t2) as [|a2 r2] eqn:E2; [contradiction|].
    cbn [pal bridge_calls appendMessage]. now rewrite <- app_assoc.
  - unfold run_, run, dispatch_. cbn [fold_left dispatch].
    unfold on_pal, sendUserQuery. cbn [pal set_chatInput chatInput].
    destruct (trim t1) as [|a1 r1] eqn:E1; [contradiction|]. reflexivity.
  - unfold dispatch_, dispatch. simpl str_eqb. reflexivity.
  - intros Hk shift. unfold dispatch_, dispatch.
    now rewrite (str_eqb_neq _ _ Hk).
Qed.

(** X16. A submission that went out and then settles: whatever the
    outcome, the send button is enabled again, the input box is empty and
    the transcript has exactly the one new user message; the status shows an
    error exactly when the call was rejected, and the reply otherwise. *)
Theorem send_then_settle (p : palette) (result : option jsstring) :
  blank (chatInput p) = false ->
  let p' := sendUserQuery_settled result (sendUserQuery_ p) in
  sendBtn_disabled (sendUserQuery_ p) = true /\
  sendBtn_disabled p' = false /\
  chatInput p' = [] /\
  messages p' = messages p ++
    [{| entry_role := User;
        entry_body := TextContent (trim (chatInput p));
        entry_meta := meta_line User (nowTime (length (messages p))) |}] /\
  (status_error p' = true <-> result = None) /\
  (forall r, result = Some r ->
             status_text p' = js "Fusion received. (" ++ r ++ js ")").
Proof.
  intro B. cbv zeta. unfold sendUserQuery_, sendUserQuery.
  destruct (trim (chatInput p)) as [|c t] eqn:E.
  - apply trim_nil_iff in E. congruence.
  - destruct result as [r|]; simpl; repeat split; try reflexivity;
      try discriminate; intros; congruence.
Qed.

(** X17. Saving a key that is missing: when the key box of the provider
    is empty, white space only, or not on the page, nothing is sent, the
    status is an error naming the provider, and the key boxes and the
    transcript are as before.  Any provider other than [openai] is taken
    to be Gemini. *)
Theorem saveApiKey_without_key (provider : jsstring) (pg : page) :
  (key_input provider pg = None \/
   exists v, key_input provider pg = Some v /\ blank v = true) ->
  let pg' := saveApiKey_ provider pg in
  bridge_calls (pal pg') = bridge_calls (pal pg) /\
  messages (pal pg') = messages (pal pg) /\
  openaiKeyInput pg' = openaiKeyInput pg /\
  geminiKeyInput pg' = geminiKeyInput pg /\
  status_error (pal pg') = true /\
  status_text (pal pg')
  = js "Enter a " ++ (if str_eqb provider (js "openai") then js "OpenAI" else js "Gemini")
    ++ js " API key before saving.".
Proof.
  intro H. cbv zeta. unfold saveApiKey_, saveApiKey.
  assert (E : trim (match key_input provider pg with Some v => v | None => [] end) = []).
  { destruct H as [-> | (v & -> & Hb)]; [reflexivity|now apply trim_nil_iff]. }
  rewrite E. repeat split.
Qed.

(** X18. Saving a key that is there sends one [saveApiKey] call with the
    trimmed key and the provider and leaves the key boxes alone until the
    call settles.  When it resolves, the box of that provider is emptied,
    the other box keeps its content and the status shows the reply, or
    [API key saved.] for an empty reply; when it is rejected, both boxes
    keep their content and the status is an error.  The transcript is
    never touched. *)
Theorem saveApiKey_with_key (provider v : jsstring) (result : option jsstring) (pg : page) :
  key_input provider pg = Some v -> blank v = false ->
  let pg1 := saveApiKey_ provider pg in
  let pg2 := saveApiKey_settled provider result pg1 in
  bridge_calls (pal pg1)
  = bridge_calls (pal pg) ++
      [(js "saveApiKey",
        JSON_stringify (JObj [(js "apiKey", JStr (trim v));
                              (js "provider", JStr provider)]))] /\
  openaiKeyInput pg1 = openaiKeyInput pg /\ geminiKeyInput pg1 = geminiKeyInput pg /\
  messages (pal pg2) = messages (pal pg) /\
  bridge_calls (pal pg2) = bridge_calls (pal pg1) /\
  (forall r, result = Some r ->
             key_input provider pg2 = Some [] /\
             (if is_openai provider
              then geminiKeyInput pg2 = geminiKeyInput pg
              else openaiKeyInput pg2 = openaiKeyInput pg) /\
             status_error (pal pg2) = false /\
             status_text (pal pg2)
             = match r with [] => js "API key saved." | _ :: _ => r end) /\
  (result = None ->
   openaiKeyInput pg2 = openaiKeyInput pg /\ geminiKeyInput pg2 = geminiKeyInput pg /\
   status_error (pal pg2) = true).
Proof.
  intros Hk Hb. cbv zeta. unfold saveApiKey_, saveApiKey. rewrite Hk.
  destruct (trim v) as [|c t] eqn:E.
  - apply trim_nil_iff in E. congruence.
  - unfold saveApiKey_settled, on_pal, set_key_input, key_input in *.
    destruct (is_openai provider) eqn:O; destruct result as [r|];
      cbn [pal openaiKeyInput geminiKeyInput messages bridge_calls
           fusionSendData setStatus status_error status_text];
      rewrite ?O; cbn [pal openaiKeyInput geminiKeyInput];
      rewrite ?Hk;
      repeat split; try reflexivity; try discriminate;
      intros; try congruence;
      match goal with
      | H : Some _ = Some _ |- _ => injection H as <-; reflexivity
      end.
Qed.

End PageFacts.



Lemma enter_submits_even_while_sending_witness :
  blank (js "first") = false /\ blank (js "second") = false /\
  length (bridge_calls
            (pal (run demo_parse no_string no_string no_string (fun _ => true)
                      no_time epoch
                      [EditChat (js "first"); ClickSend; EditChat (js "second");
                       Keydown (js "Enter") false] demo_page))) = 2.
Proof.
  split; [reflexivity|]. split; [reflexivity|].
  destruct (enter_submits_even_while_sending unit demo_parse no_string no_string
              no_string (fun _ => true) no_time epoch demo_page
              (js "first") (js "second") (js "a") eq_refl eq_refl) as (H & _).
  rewrite H. reflexivity.
Defined.

Lemma send_then_settle_witness :
  blank (chatInput (pal demo_page)) = false /\
  sendBtn_disabled
    (sendUserQuery_settled None (sendUserQuery no_string no_time epoch (pal demo_page)))
  = false.
Proof.
  split; [reflexivity|].
  destruct (send_then_settle unit no_string no_time epoch (pal demo_page) None eq_refl)
    as (_ & H & _).
  exact H.
Defined.

Lemma saveApiKey_without_key_witness :
  key_input (js "gemini") demo_page = None /\
  status_text (pal (saveApiKey no_string (js "gemini") demo_page))
  = js "Enter a Gemini API key before saving.".
Proof.
  split; [reflexivity|].
  destruct (saveApiKey_without_key unit no_string (js "gemini") demo_page
              (or_introl eq_refl)) as (_ & _ & _ & _ & _ & H).
  rewrite H. reflexivity.
Defined.

Lemma saveApiKey_with_key_witness :
  key_input (js "openai") demo_page = Some (js " sk-1 ") /\
  blank (js " sk-1 ") = false /\
  key_input (js "openai")
    (saveApiKey_settled (js "openai") (Some [])
       (saveApiKey no_string (js "openai") demo_page)) = Some [].
Proof.
  split; [reflexivity|]. split; [reflexivity|].
  destruct (saveApiKey_with_key unit no_string (js "openai") (js " sk-1 ") (Some [])
              demo_page eq_refl eq_refl) as (_ & _ & _ & _ & _ & H & _).
  exact (proj1 (H [] eq_refl)).
Defined.

(** ** Numbered steps, the other way round *)

Lemma regex_match_unfold (r : regex) (prev : option cu) (s : jsstring) :
  regex_match r prev s =
    match match_here r [] prev s with
    | Some res => Some res
    | None =>
        match s with
        | [] => None
        | c :: s' => regex_match r (Some c) s'
        end
    end.
Proof. destruct s; reflexivity. Qed.

(** X19. The step pattern matches only a line made of digits, a [.] or
    [)], white space and then text without a line terminator, up to the end
    of the line; the two captures are those digits and that text.  So no
    other line is turned into a step. *)
Theorem numberedMatch_only_numbered_lines (line : jsstring) (caps : list jsstring) :
  numberedMatch line = Some caps ->
  exists digits sep ws text,
    line = digits ++ sep :: ws ++ text /\
    digits <> [] /\ forallb is_digit digits = true /\
    is_step_sep sep = true /\
    ws <> [] /\ forallb is_space ws = true /\
    text <> [] /\ forallb is_dot text = true /\
    caps = [digits; text].
Proof.
  unfold numberedMatch. intro H.
  destruct (regex_match re_numbered None line) as [[caps' rest]|] eqn:M;
    [|discriminate H]. injection H as ->.
  assert (M0 : match_here re_numbered [] None line = Some (caps, rest)).
  { rewrite regex_match_unfold in M.
    destruct (match_here re_numbered [] None line) as [res|]; [exact M|].
    destruct line as [|c line]; [discriminate M|].
    now rewrite regex_match_numbered_later in M. }
  clear M. unfold re_numbered in M0. cbn [match_here] in M0.
  apply plus_run_inv in M0 as (digits & r1 & -> & Hd1 & Hd2 & K1).
  cbn [match_here app] in K1.
  destruct r1 as [|sep r1]; [discriminate K1|].
  destruct (is_step_sep sep) eqn:Hsep; [|discriminate K1].
  apply plus_run_inv in K1 as (ws & r2 & -> & Hw1 & Hw2 & K2).
  cbn [match_here app] in K2.
  apply plus_run_inv in K2 as (text & r3 & -> & Ht1 & Ht2 & K3).
  cbn [match_here app] in K3.
  destruct r3 as [|x r3]; [|discriminate K3].
  injection K3 as <- <-.
  exists digits, sep, ws, text. rewrite app_nil_r. now repeat split.
Qed.

Lemma numberedMatch_only_numbered_lines_witness :
  numberedMatch (js "3) Extrude 5 mm") = Some [js "3"; js "Extrude 5 mm"] /\
  exists digits sep ws text,
    js "3) Extrude 5 mm" = digits ++ sep :: ws ++ text /\ digits <> [] /\
    forallb is_digit digits = true /\ is_step_sep sep = true /\
    ws <> [] /\ forallb is_space ws = true /\
    text <> [] /\ forallb is_dot text = true /\
    [js "3"; js "Extrude 5 mm"] = [digits; text].
Proof.
  split; [reflexivity|].
  exact (numberedMatch_only_numbered_lines (js "3) Extrude 5 mm") _ eq_refl).
Defined.

